(** * In-memory rate limiter (lib/security/rate-limit.ts)

    A shallow embedding of the rate-limiting utility: the policy table
    [RATE_LIMIT_CONFIG], the module-level store [rateLimitStore] with its
    cleanup timer, and the two exported functions [rateLimitCheck] and
    [getRateLimitRemaining].

    Modelling conventions.
    - [Date.now()] is an integer number of milliseconds; every operation
      takes the value it reads from the clock as an explicit argument [now].
    - JavaScript numbers that stay integral (timestamps, counters, limits)
      are unbounded integers [Z]: the counters of this module stay far below
      2^53, where doubles stop being exact.
    - The module-level variables [rateLimitStore] and [cleanupTimer] form
      the record [State], threaded through a state-and-exception monad: a
      call returns an outcome (a value or a thrown error) together with the
      state it leaves behind, because a JavaScript exception does not undo
      the mutations made before it.

    Further parts embed the sanitiser (lib/security/sanitize.ts), the route
    protection proxy (proxy.ts) and the log redaction
    (lib/security/audit.ts), each with its own conventions. *)

From Stdlib Require Import ZArith.
From Stdlib Require DecimalString DecimalNat.
From stdpp Require Import gmap strings list fin_maps.

Local Open Scope Z_scope.

(** ** JavaScript values *)

(** The values the module computes with: numbers (integral ones, and [NaN])
    and [undefined]. *)
Inductive jsval : Type :=
  | VNum (z : Z)
  | VNaN
  | VUndefined.

#[global] Instance jsval_eq_dec : EqDecision jsval.
Proof. solve_decision. Defined.

(** [a + b] on numbers; [undefined] converts to [NaN], which is absorbing. *)
Definition js_add (a b : jsval) : jsval :=
  match a, b with
  | VNum x, VNum y => VNum (x + y)
  | _, _ => VNaN
  end.

(** [a - b]. *)
Definition js_sub (a b : jsval) : jsval :=
  match a, b with
  | VNum x, VNum y => VNum (x - y)
  | _, _ => VNaN
  end.

(** [a > b]: false as soon as one side is [NaN] (or [undefined], which
    converts to [NaN]). *)
Definition js_gt (a b : jsval) : bool :=
  match a, b with
  | VNum x, VNum y => x >? y
  | _, _ => false
  end.

(** [Math.max(a, b)]: [NaN] as soon as one argument is not a number. *)
Definition Math_max (a b : jsval) : jsval :=
  match a, b with
  | VNum x, VNum y => VNum (Z.max x y)
  | _, _ => VNaN
  end.

(** ** Configuration *)

(** One policy of the table: [{ maxRequests, windowMs }]. *)
Record Policy : Type := {
  maxRequests : Z;
  windowMs : Z
}.

(** The own properties of a configuration object. *)
Abbreviation ConfigTable := (gmap string Policy).

Definition RATE_LIMIT_CONFIG : ConfigTable :=
  <["default" := {| maxRequests := 100; windowMs := 15 * 60 * 1000 |}]>
  (<["auth" := {| maxRequests := 20; windowMs := 15 * 60 * 1000 |}]>
  (<["booking" := {| maxRequests := 50; windowMs := 15 * 60 * 1000 |}]> ∅)).

(** The table is a plain object literal, so the indexing expression
    [RATE_LIMIT_CONFIG[category]] also finds the members every object
    inherits from [Object.prototype]. *)
Definition Object_prototype : list string :=
  [ "constructor"; "hasOwnProperty"; "isPrototypeOf"; "propertyIsEnumerable";
    "toLocaleString"; "toString"; "valueOf"; "__proto__";
    "__defineGetter__"; "__defineSetter__"; "__lookupGetter__";
    "__lookupSetter__" ]%string.

(** What [table[name]] evaluates to. *)
Inductive ConfigValue : Type :=
  | OwnPolicy (p : Policy)   (* an entry of the table *)
  | Inherited                (* a member of Object.prototype: a function or
                                object with no maxRequests, no windowMs *)
  | Undefined.               (* the property is found nowhere *)

Definition get_property (table : ConfigTable) (name : string) : ConfigValue :=
  match table !! name with
  | Some p => OwnPolicy p
  | None => if bool_decide (name ∈ Object_prototype) then Inherited else Undefined
  end.

(** ** Outcomes and the module state *)

Inductive Error : Type := TypeError.

Inductive Outcome (A : Type) : Type :=
  | Return (a : A)
  | Throw (e : Error).
Arguments Return {A} a.
Arguments Throw {A} e.

(** [config.maxRequests] and [config.windowMs]: reading a property of
    [undefined] throws; a missing property reads as [undefined]. *)
Definition read_maxRequests (config : ConfigValue) : Outcome jsval :=
  match config with
  | OwnPolicy p => Return (VNum (maxRequests p))
  | Inherited => Return VUndefined
  | Undefined => Throw TypeError
  end.

Definition read_windowMs (config : ConfigValue) : Outcome jsval :=
  match config with
  | OwnPolicy p => Return (VNum (windowMs p))
  | Inherited => Return VUndefined
  | Undefined => Throw TypeError
  end.

(** [interface RateLimitEntry { count: number; resetTime: number }].  The
    count is only ever set to 1 and incremented, so it is an integer; the
    reset time is [now + config.windowMs], which may be [NaN]. *)
Record RateLimitEntry : Type := {
  count : Z;
  resetTime : jsval
}.

(** The handle [setInterval] returns: a repeating timer with its period. *)
Inductive Timer : Type := Interval (period : Z).

Definition CLEANUP_INTERVAL : Z := 5 * 60 * 1000.

(** The two module-level variables. *)
Record State : Type := {
  rateLimitStore : gmap string RateLimitEntry;
  cleanupTimer : option Timer
}.

(** The state when the module has just been loaded. *)
Definition initial : State :=
  {| rateLimitStore := ∅; cleanupTimer := None |}.

(** ** The state-and-exception monad *)

Definition M (A : Type) : Type := State → Outcome A * State.

#[global] Instance M_ret : MRet M := λ A a s, (Return a, s).

#[global] Instance M_bind : MBind M := λ A B f m s,
  match m s with
  | (Return a, s') => f a s'
  | (Throw e, s') => (Throw e, s')
  end.

(** Evaluate an expression that may throw, without touching the state. *)
Definition eval {A : Type} (o : Outcome A) : M A := λ s, (o, s).

(** [rateLimitStore.get(key)] *)
Definition store_get (key : string) : M (option RateLimitEntry) :=
  λ s, (Return (rateLimitStore s !! key), s).

(** [rateLimitStore.set(key, entry)] *)
Definition store_set (key : string) (entry : RateLimitEntry) : M unit :=
  λ s, (Return (),
        {| rateLimitStore := <[key := entry]> (rateLimitStore s);
           cleanupTimer := cleanupTimer s |}).

(** [entry.count += 1], where [entry] is the object stored under [key]: the
    object is mutated in place, so the store sees the new count.  Returns
    the mutated entry. *)
Definition entry_increment (key : string) (entry : RateLimitEntry)
  : M RateLimitEntry :=
  let entry' := {| count := count entry + 1; resetTime := resetTime entry |} in
  λ s, (Return entry',
        {| rateLimitStore := <[key := entry']> (rateLimitStore s);
           cleanupTimer := cleanupTimer s |}).

(** ** Cleanup *)

(** [now > entry.resetTime] *)
Definition expired (now : Z) (entry : RateLimitEntry) : bool :=
  js_gt (VNum now) (resetTime entry).

(** The body of the loop in the timer callback, for one [[key, entry]]. *)
Definition cleanup_visit (now : Z) (store : gmap string RateLimitEntry)
  (item : string * RateLimitEntry) : gmap string RateLimitEntry :=
  if expired now item.2 then delete item.1 store else store.

(** The loop [for (const [key, entry] of rateLimitStore.entries())], visiting
    the entries in the order [items] and deleting from the live store. *)
Definition cleanup_loop (now : Z) (items : list (string * RateLimitEntry))
  (store : gmap string RateLimitEntry) : gmap string RateLimitEntry :=
  foldl (cleanup_visit now) store items.

(** One run of the callback given to [setInterval], at clock value [now].
    Deleting the entry being visited does not disturb a [Map] iterator, so
    the loop visits exactly the entries present when it starts. *)
Definition cleanup_callback (now : Z) (s : State) : State :=
  {| rateLimitStore :=
       cleanup_loop now (map_to_list (rateLimitStore s)) (rateLimitStore s);
     cleanupTimer := cleanupTimer s |}.

(** [startCleanup()]: installs the timer unless one is already installed. *)
Definition startCleanup : M unit := λ s,
  match cleanupTimer s with
  | Some _ => (Return (), s)
  | None => (Return (),
             {| rateLimitStore := rateLimitStore s;
                cleanupTimer := Some (Interval CLEANUP_INTERVAL) |})
  end.

(** ** The exported functions *)

(** The template literal [`${category}:${identifier}`]. *)
Definition composite_key (category identifier : string) : string :=
  category +:+ ":" +:+ identifier.

Section WithTable.

Variable table : ConfigTable.

Definition rateLimitCheckWith (now : Z) (identifier category : string)
  : M bool :=
  startCleanup ;;
  let config := get_property table category in
  let key := composite_key category identifier in
  entry ← store_get key;
  let reset : M bool :=
    (* no existing entry or window expired: allow and create/reset *)
    window ← eval (read_windowMs config);
    store_set key {| count := 1; resetTime := js_add (VNum now) window |} ;;
    mret true in
  match entry with
  | None => reset
  | Some e =>
      if expired now e then reset
      else
        (* within window: increment and check *)
        e' ← entry_increment key e;
        limit ← eval (read_maxRequests config);
        if js_gt (VNum (count e')) limit then mret false else mret true
  end.

Definition getRateLimitRemainingWith (now : Z) (identifier category : string)
  : M jsval :=
  let config := get_property table category in
  let key := composite_key category identifier in
  entry ← store_get key;
  match entry with
  | None => eval (read_maxRequests config)
  | Some e =>
      if expired now e then eval (read_maxRequests config)
      else
        limit ← eval (read_maxRequests config);
        mret (Math_max (VNum 0) (js_sub limit (VNum (count e))))
  end.

End WithTable.

Definition rateLimitCheck : Z → string → string → M bool :=
  rateLimitCheckWith RATE_LIMIT_CONFIG.

Definition getRateLimitRemaining : Z → string → string → M jsval :=
  getRateLimitRemainingWith RATE_LIMIT_CONFIG.

(** ** Drivers *)

(** Successive [rateLimitCheck] calls with the same arguments, one per clock
    value of [times]; whatever a call throws is caught by the caller, and the
    next call runs on the state it left. *)
Fixpoint run_checks (identifier category : string) (times : list Z) (s : State)
  : list (Outcome bool) * State :=
  match times with
  | [] => ([], s)
  | now :: rest =>
      let '(r, s1) := rateLimitCheck now identifier category s in
      let '(rs, s2) := run_checks identifier category rest s1 in
      (r :: rs, s2)
  end.

(** The states the module can be in: from [initial], any call of an exported
    function, with any arguments and at any clock value, and any firing of
    the cleanup timer once it is installed. *)
Inductive reachable : State → Prop :=
  | reach_initial : reachable initial
  | reach_check now identifier category s :
      reachable s → reachable (rateLimitCheck now identifier category s).2
  | reach_remaining now identifier category s :
      reachable s → reachable (getRateLimitRemaining now identifier category s).2
  | reach_cleanup now s :
      reachable s → is_Some (cleanupTimer s) →
      reachable (cleanup_callback now s).


(** The number of admitted calls among the results of a run. *)
Fixpoint admissions (results : list (Outcome bool)) : nat :=
  match results with
  | [] => 0%nat
  | Return true :: rest => S (admissions rest)
  | _ :: rest => admissions rest
  end.

(** * Input sanitisation (lib/security/sanitize.ts) *)

(** ** Strings and values *)

(** The sanitiser looks inside strings, where [trim] removes whitespace that
    is not ASCII: a JavaScript string is here the sequence of its UTF-16
    code units. *)
Abbreviation jsstring := (list Z).

(** The code units of an ASCII literal. *)
Definition lit (s : string) : jsstring :=
  (λ a, Z.of_N (Ascii.N_of_ascii a)) <$> String.list_ascii_of_string s.

(** The values a request body is made of.  An object is the list of its own
    enumerable properties in the order [Object.entries] yields them; an array
    is dense; [DOther] stands for every value whose [typeof] is neither
    ["string"] nor ["object"], and for [null].  Values are finite trees:
    cyclic objects are not represented. *)
#[local] Unset Elimination Schemes.
Inductive data (P : Type) : Type :=
  | DString (s : jsstring)
  | DArray (items : list (data P))
  | DObject (entries : list (jsstring * data P))
  | DOther (p : P).
#[local] Set Elimination Schemes.
Arguments DString {P} s.
Arguments DArray {P} items.
Arguments DObject {P} entries.
Arguments DOther {P} p.

(** [s.replace(/c/g, r)] for a pattern that is the single character [c] and
    a replacement [r] without [$]: every occurrence of [c] becomes [r]. *)
Definition replace_all (c : Z) (r : jsstring) (s : jsstring) : jsstring :=
  flat_map (λ x, if decide (x = c) then r else [x]) s.

(** The code units [String.prototype.trim] removes: ECMAScript's WhiteSpace
    (TAB, VT, FF, SP, NBSP, ZWNBSP and the Unicode space separators) and
    LineTerminator (LF, CR, LS, PS). *)
Definition is_whitespace (c : Z) : bool :=
  bool_decide (c ∈ [9; 10; 11; 12; 13; 32; 160; 5760; 8192; 8193; 8194; 8195;
                    8196; 8197; 8198; 8199; 8200; 8201; 8202; 8232; 8233;
                    8239; 8287; 12288; 65279]).

Fixpoint trimStart (s : jsstring) : jsstring :=
  match s with
  | [] => []
  | c :: rest => if is_whitespace c then trimStart rest else s
  end.

Definition trimEnd (s : jsstring) : jsstring :=
  reverse (trimStart (reverse s)).

Definition trim (s : jsstring) : jsstring := trimEnd (trimStart s).

(** ** sanitizeInput *)

Definition sanitizeInput {P} (input : data P) : jsstring :=
  match input with
  | DString s =>
      trim
        (replace_all 96 (lit "&#96;")        (* ` *)
        (replace_all 47 (lit "&#x2F;")       (* / *)
        (replace_all 39 (lit "&#x27;")       (* ' *)
        (replace_all 34 (lit "&quot;")       (* double quote *)
        (replace_all 62 (lit "&gt;")         (* > *)
        (replace_all 60 (lit "&lt;")         (* < *)
        (replace_all 38 (lit "&amp;") s))))))) (* & *)
  | _ => []   (* typeof input !== "string" *)
  end.

(** What the chain of replacements makes of one code unit of the input. *)
Definition html_entity (c : Z) : jsstring :=
  if decide (c = 38) then lit "&amp;"
  else if decide (c = 60) then lit "&lt;"
  else if decide (c = 62) then lit "&gt;"
  else if decide (c = 34) then lit "&quot;"
  else if decide (c = 39) then lit "&#x27;"
  else if decide (c = 47) then lit "&#x2F;"
  else if decide (c = 96) then lit "&#96;"
  else [c].

(** The seven characters the sanitiser replaces, and the six of them that
    no longer occur in its output. *)
Definition escaped_characters : list Z := [38; 60; 62; 34; 39; 47; 96].
Definition dangerous_characters : list Z := [60; 62; 34; 39; 47; 96].

(** ** sanitizeObject *)

(** The key under which [Object.entries] lists item [i] of an array. *)
Definition index_key (i : nat) : jsstring :=
  lit (DecimalString.NilZero.string_of_uint (Nat.to_uint i)).

(** [Object.entries(items)] for an array. *)
Definition array_entries {A} (items : list A) : list (jsstring * A) :=
  imap (λ i item, (index_key i, item)) items.

(** Writing an own property: an existing key keeps its place and takes the
    new value, a new key goes last. *)
Fixpoint define_property {A} (entries : list (jsstring * A))
  (key : jsstring) (value : A) : list (jsstring * A) :=
  match entries with
  | [] => [(key, value)]
  | (k, v) :: rest =>
      if decide (k = key) then (k, value) :: rest
      else (k, v) :: define_property rest key value
  end.

(** [target[key] = value] on an object created by [{}].  The key
    ["__proto__"] is the accessor inherited from [Object.prototype]: the
    assignment calls its setter, which changes the prototype link or does
    nothing, and defines no own property.  (The prototype link is not part
    of the model.) *)
Definition assign {A} (target : list (jsstring * A))
  (key : jsstring) (value : A) : list (jsstring * A) :=
  if decide (key = lit "__proto__") then target
  else define_property target key value.

(** The loop [for (const [key, value] of entries) target[key] = value] on a
    fresh object. *)
Definition assign_entries {A} (entries : list (jsstring * A))
  : list (jsstring * A) :=
  foldl (λ target '(key, value), assign target key value) [] entries.

Section SanitizeObject.

Context {P : Type}.

(** [sanitizeObject(obj)].  [branch] is the chain of tests in the body of
    the loop, applied to the value of one entry; the values are computed
    without side effect, so they are computed first here and assigned to
    [sanitized] afterwards, in the order of the entries.

    The function is called on objects and, for an array found inside an
    array, on arrays; its signature and its [typeof] guards keep other
    values out, and for those the model follows [Object.entries]: the
    characters of a string, nothing for the rest (where the source throws on
    [null] and [undefined]). *)
Fixpoint sanitizeObject (obj : data P) : data P :=
  let branch (value : data P) : data P :=
    match value with
    | DString _ => DString (sanitizeInput value)
    | DArray items =>
        DArray (map (λ item,
                  match item with
                  | DString _ => DString (sanitizeInput item)
                  | DArray _ | DObject _ => sanitizeObject item
                  | DOther _ => item
                  end) items)
    | DObject _ => sanitizeObject value
    | DOther _ => value
    end in
  match obj with
  | DObject entries =>
      DObject (assign_entries (map (λ '(key, value), (key, branch value)) entries))
  | DArray items =>
      DObject (assign_entries (array_entries (map branch items)))
  | DString s =>
      DObject (assign_entries (array_entries
                 (map (λ c, DString (sanitizeInput (P := P) (DString [c]))) s)))
  | DOther _ => DObject []
  end.

(** What the loop of [sanitizeObject] stores for an item of an array, and
    for the value of a property. *)
Definition sanitize_item (item : data P) : data P :=
  match item with
  | DString _ => DString (sanitizeInput item)
  | DArray _ | DObject _ => sanitizeObject item
  | DOther _ => item
  end.

Definition sanitize_value (value : data P) : data P :=
  match value with
  | DString _ => DString (sanitizeInput value)
  | DArray items => DArray (map sanitize_item items)
  | DObject _ => sanitizeObject value
  | DOther _ => value
  end.

(** The strings a value holds as values, at any depth (keys are not
    values). *)
Fixpoint strings_of (d : data P) : list jsstring :=
  match d with
  | DString s => [s]
  | DArray items => flat_map strings_of items
  | DObject entries => flat_map (λ '(_, value), strings_of value) entries
  | DOther _ => []
  end.

(** Induction on values, with the items of arrays and the values of
    properties as the smaller values. *)
Fixpoint data_induction (Q : data P → Prop)
  (Hstring : ∀ s, Q (DString s))
  (Harray : ∀ items, Forall Q items → Q (DArray items))
  (Hobject : ∀ entries, Forall (λ e, Q e.2) entries → Q (DObject entries))
  (Hother : ∀ p, Q (DOther p))
  (d : data P) : Q d :=
  match d with
  | DString s => Hstring s
  | DArray items =>
      Harray items
        ((fix go (l : list (data P)) : Forall Q l :=
            match l with
            | [] => Forall_nil_2 Q
            | x :: r =>
                Forall_cons_2 Q x r
                  (data_induction Q Hstring Harray Hobject Hother x) (go r)
            end) items)
  | DObject entries =>
      Hobject entries
        ((fix go (l : list (jsstring * data P)) : Forall (λ e, Q e.2) l :=
            match l with
            | [] => Forall_nil_2 _
            | x :: r =>
                Forall_cons_2 (λ e, Q e.2) x r
                  (data_induction Q Hstring Harray Hobject Hother x.2) (go r)
            end) entries)
  | DOther p => Hother p
  end.

(** A string without any of the six dangerous characters, and a value all
    of whose strings are such. *)
Definition safe_string (s : jsstring) : Prop :=
  Forall (λ c, c ∉ dangerous_characters) s.

Definition safe_value (d : data P) : Prop :=
  Forall safe_string (strings_of d).

End SanitizeObject.

(** * Route protection (proxy.ts) *)

(** Paths, cookie names and header names are compared, searched for ASCII
    text and tested for ASCII prefixes only; they are strings of bytes
    here. *)

Definition PUBLIC_ROUTES : list string :=
  ["/"; "/login"; "/register"; "/forgot-password"]%string.

Definition SECURITY_HEADERS : list (string * string) :=
  [ ("X-Content-Type-Options", "nosniff");
    ("X-Frame-Options", "DENY");
    ("X-XSS-Protection", "1; mode=block");
    ("Referrer-Policy", "strict-origin-when-cross-origin");
    ("Permissions-Policy", "camera=(), microphone=(), geolocation=()");
    ("Strict-Transport-Security",
     "max-age=63072000; includeSubDomains; preload");
    ("Content-Security-Policy",
     String.concat "; "
       [ "default-src 'self'";
         "script-src 'self' 'unsafe-inline' 'unsafe-eval'";
         "style-src 'self' 'unsafe-inline'";
         "img-src 'self' data: https://images.unsplash.com";
         "font-src 'self'";
         "connect-src 'self' http://localhost:5000";
         "frame-ancestors 'none'" ]) ]%string.

(** ** Strings *)

(** [s.includes(needle)] *)
Fixpoint includes (needle s : string) : bool :=
  String.prefix needle s ||
  match s with
  | EmptyString => false
  | String _ rest => includes needle rest
  end.

(** Header names do not distinguish case: a [Headers] object is a map from
    the lower-case form of the names. *)
Definition lowercase_ascii (a : Ascii.ascii) : Ascii.ascii :=
  let n := Ascii.N_of_ascii a in
  if (65 <=? n)%N && (n <=? 90)%N then Ascii.ascii_of_N (n + 32) else a.

Fixpoint lowercase (s : string) : string :=
  match s with
  | EmptyString => EmptyString
  | String a rest => String (lowercase_ascii a) (lowercase rest)
  end.

(** ** Requests and responses *)

(** What the proxy reads of a request: [request.nextUrl.pathname],
    [request.url], and the values of the cookies by name. *)
Record NextRequest : Type := {
  pathname : string;
  url : string;
  cookies : gmap string string
}.

(** [new URL(path, base)] with the parameters set on its [searchParams]. *)
Record URL : Type := {
  url_path : string;
  url_base : string;
  searchParams : list (string * string)
}.

(** A response is what the framework is told to do, with the headers set
    on it through [response.headers]. *)
Inductive ResponseKind : Type :=
  | Next                       (* NextResponse.next() *)
  | Redirect (location : URL). (* NextResponse.redirect(location) *)

Record NextResponse : Type := {
  kind : ResponseKind;
  headers : gmap string string
}.

Definition NextResponse_next : NextResponse :=
  {| kind := Next; headers := ∅ |}.

Definition NextResponse_redirect (location : URL) : NextResponse :=
  {| kind := Redirect location; headers := ∅ |}.

(** [response.headers.set(name, value)] and [response.headers.get(name)] *)
Definition headers_set (response : NextResponse) (name value : string)
  : NextResponse :=
  {| kind := kind response;
     headers := <[lowercase name := value]> (headers response) |}.

Definition headers_get (response : NextResponse) (name : string)
  : option string :=
  headers response !! lowercase name.

(** [a || b] on two values that are strings or [undefined], and [!a]: the
    empty string and [undefined] are the falsy ones. *)
Definition js_or (a b : option string) : option string :=
  match a with
  | Some v => if decide (v = EmptyString) then b else a
  | None => b
  end.

Definition js_not (a : option string) : bool :=
  match a with
  | Some v => bool_decide (v = EmptyString)
  | None => true
  end.

(** ** proxy *)

(** The loop over [Object.entries(SECURITY_HEADERS)]. *)
Definition apply_security_headers (response : NextResponse) : NextResponse :=
  foldl (λ r '(key, value), headers_set r key value) response SECURITY_HEADERS.

Definition isPublicRoute (pathname : string) : bool :=
  existsb (λ route, bool_decide (pathname = route) ||
                    String.prefix (route +:+ "/") pathname)
    PUBLIC_ROUTES.

Definition isStaticOrApi (pathname : string) : bool :=
  String.prefix "/_next" pathname ||
  String.prefix "/favicon" pathname ||
  includes "." pathname.

Definition proxy (request : NextRequest) : NextResponse :=
  let pathname := pathname request in
  let response := apply_security_headers NextResponse_next in
  if isPublicRoute pathname || isStaticOrApi pathname then response
  else
    let token :=
      js_or (cookies request !! "session-token")
            (cookies request !! "next-auth.session-token") in
    if js_not token then
      NextResponse_redirect
        {| url_path := "/login"; url_base := url request;
           searchParams := [("callbackUrl", pathname)]%string |}
    else
      (* the block guarded by pathname.startsWith("/admin") is empty *)
      response.

(** * Redaction for logs (lib/security/audit.ts) *)

(** ** The patterns for sensitive keys *)

(** The twelve patterns are sequences of letters, three of them with one
    [.?] in the middle; all carry the flag [i] and none the flag [g], so
    [pattern.test(key)] keeps no state. *)
Inductive atom : Type :=
  | Letter (c : Z)   (* a literal character of the pattern *)
  | OptionalAny.     (* [.?] *)

Definition letters (s : string) : list atom := Letter <$> lit s.

Definition SENSITIVE_PATTERNS : list (list atom) :=
  [ letters "password";
    letters "token";
    letters "secret";
    letters "authorization";
    letters "cookie";
    letters "cvv";
    letters "cvc";
    letters "credit" ++ [OptionalAny] ++ letters "card";
    letters "card" ++ [OptionalAny] ++ letters "number";
    letters "pan";
    letters "ssn";
    letters "social" ++ [OptionalAny] ++ letters "security" ].

(** Under the flag [i] two code units match when their canonical forms are
    equal.  The literals of the patterns are ASCII letters, and the canonical
    form of a code unit is an ASCII capital only for that capital and its
    small letter: upper-casing the ASCII small letters decides the match. *)
Definition ascii_upper (c : Z) : Z :=
  if bool_decide (97 ≤ c ≤ 122) then c - 32 else c.

Definition same_letter (a c : Z) : bool :=
  bool_decide (ascii_upper a = ascii_upper c).

(** [.] matches every code unit but the line terminators. *)
Definition is_line_terminator (c : Z) : bool :=
  bool_decide (c ∈ [10; 13; 8232; 8233]).

(** Does the pattern match a prefix of [s]?  ([.?] first tries to take a
    character, then to take none.) *)
Fixpoint match_here (p : list atom) (s : jsstring) : bool :=
  match p with
  | [] => true
  | Letter a :: p' =>
      match s with
      | c :: s' => same_letter a c && match_here p' s'
      | [] => false
      end
  | OptionalAny :: p' =>
      match s with
      | c :: s' =>
          (negb (is_line_terminator c) && match_here p' s') || match_here p' s
      | [] => match_here p' s
      end
  end.

(** [pattern.test(s)]: a match starting at some position. *)
Fixpoint regex_test (p : list atom) (s : jsstring) : bool :=
  match_here p s ||
  match s with
  | [] => false
  | _ :: s' => regex_test p s'
  end.

Definition isSensitive (key : jsstring) : bool :=
  existsb (λ pattern, regex_test pattern key) SENSITIVE_PATTERNS.

(** ** The card number pattern *)

(** [/\b\d{4}[\s-]?\d{4}[\s-]?\d{4}[\s-]?\d{4}\b/g] *)

Definition is_digit (c : Z) : bool := bool_decide (48 ≤ c ≤ 57).

(** The characters [\w] matches, which decide [\b]. *)
Definition is_word (c : Z) : bool :=
  is_digit c || bool_decide (65 ≤ c ≤ 90) || bool_decide (97 ≤ c ≤ 122) ||
  bool_decide (c = 95).

(** [[\s-]]: the class [\s] is the whitespace [trim] removes. *)
Definition is_separator (c : Z) : bool :=
  is_whitespace c || bool_decide (c = 45).

(** [\b] between the character [before] and the character [after], where
    [None] is an end of the string. *)
Definition word_boundary (before after : option Z) : bool :=
  negb (eqb (from_option is_word false before)
            (from_option is_word false after)).

(** The pieces of the pattern, each with the rest of the pattern as a
    continuation [k]; a match returns the text it has not consumed. *)
Definition four_digits (k : Z → jsstring → option jsstring) (s : jsstring)
  : option jsstring :=
  match s with
  | a :: b :: c :: d :: rest =>
      if is_digit a && is_digit b && is_digit c && is_digit d
      then k d rest else None
  | _ => None
  end.

Definition optional_separator (k : jsstring → option jsstring) (s : jsstring)
  : option jsstring :=
  match s with
  | c :: rest =>
      if is_separator c then
        match k rest with
        | Some r => Some r
        | None => k s
        end
      else k s
  | [] => k s
  end.

(** A match of the pattern at the start of [s], the character before [s]
    being [before]. *)
Definition match_card (before : option Z) (s : jsstring) : option jsstring :=
  if word_boundary before (head s) then
    four_digits (λ _, optional_separator
   (four_digits (λ _, optional_separator
   (four_digits (λ _, optional_separator
   (four_digits (λ last rest,
      if word_boundary (Some last) (head rest) then Some rest else None))))))) s
  else None.

(** [value.replace(CARD_NUMBER_REGEX, "****-****-****-****")]: the matches
    are looked for from left to right, each search starting where the
    previous match ended.  [skip] counts the characters of the current match
    still to pass over. *)
Fixpoint mask_from (before : option Z) (skip : nat) (s : jsstring) : jsstring :=
  match s with
  | [] => []
  | c :: rest =>
      match skip with
      | S n => mask_from (Some c) n rest
      | O =>
          match match_card before s with
          | Some unconsumed =>
              lit "****-****-****-****" ++
              mask_from (Some c) (length rest - length unconsumed) rest
          | None => c :: mask_from (Some c) 0 rest
          end
      end
  end.

Definition mask_card_numbers (s : jsstring) : jsstring := mask_from None 0 s.

(** ** redactSensitiveData *)

Section Redact.

Context {P : Type}.

(** [redactSensitiveData(data)].  As for [sanitizeObject], the values are
    computed first and assigned to [redacted] afterwards, in the order of
    the entries, and the argument is an object or, for an array found inside
    an array, an array. *)
Fixpoint redactSensitiveData (input : data P) : data P :=
  let branch (key : jsstring) (value : data P) : data P :=
    if isSensitive key then DString (lit "[REDACTED]")
    else
      match value with
      | DString s => DString (mask_card_numbers s)
      | DArray items =>
          DArray (map (λ item,
                    match item with
                    | DArray _ | DObject _ => redactSensitiveData item
                    | _ => item
                    end) items)
      | DObject _ => redactSensitiveData value
      | DOther _ => value
      end in
  match input with
  | DObject entries =>
      DObject (assign_entries
                 (map (λ '(key, value), (key, branch key value)) entries))
  | DArray items =>
      DObject (assign_entries
                 ((fix entries_from (i : nat) (l : list (data P)) :=
                     match l with
                     | [] => []
                     | item :: rest =>
                         (index_key i, branch (index_key i) item)
                         :: entries_from (S i) rest
                     end) 0%nat items))
  | DString s =>
      DObject (assign_entries
                 (map (λ '(key, c),
                         (key, if isSensitive key then DString (lit "[REDACTED]")
                               else DString (mask_card_numbers [c])))
                    (array_entries s)))
  | DOther _ => DObject []
  end.

(** What the loop of [redactSensitiveData] stores for an item of an array,
    and for the value of a property with the key [key]. *)
Definition redact_item (item : data P) : data P :=
  match item with
  | DArray _ | DObject _ => redactSensitiveData item
  | _ => item
  end.

Definition redact_value (key : jsstring) (value : data P) : data P :=
  if isSensitive key then DString (lit "[REDACTED]")
  else
    match value with
    | DString s => DString (mask_card_numbers s)
    | DArray items => DArray (map redact_item items)
    | DObject _ => redactSensitiveData value
    | DOther _ => value
    end.

End Redact.

(** Every digit of the string directly follows a character of a word (a
    letter, a digit or an underscore), [before] being the character before
    the string. *)
Fixpoint digits_follow_words (before : option Z) (s : jsstring) : Prop :=
  match s with
  | [] => True
  | c :: rest =>
      (is_digit c = true → from_option is_word false before = true) ∧
      digits_follow_words (Some c) rest
  end.

(** The shape of a card number: four groups of four digits, with at most
    one separator between two groups. *)
Definition digit_group (g : jsstring) : Prop :=
  length g = 4%nat ∧ Forall (λ c, is_digit c = true) g.

Definition optional_separator_text (s : jsstring) : Prop :=
  s = [] ∨ ∃ c, s = [c] ∧ is_separator c = true.

(** * Properties *)

(** ** Unfolding the monad *)

Ltac unfold_ops :=
  unfold rateLimitCheck, getRateLimitRemaining,
    rateLimitCheckWith, getRateLimitRemainingWith,
    mbind, M_bind, mret, M_ret, eval,
    store_get, store_set, entry_increment, startCleanup in *.

(** The timer once [startCleanup] has run. *)
Lemma startCleanup_store s :
  rateLimitStore (startCleanup s).2 = rateLimitStore s.
Proof. unfold startCleanup. by destruct (cleanupTimer s). Qed.

Lemma startCleanup_timer s :
  is_Some (cleanupTimer (startCleanup s).2).
Proof.
  unfold startCleanup. destruct (cleanupTimer s) eqn:E; simpl; [|by eauto].
  rewrite E. by eauto.
Qed.

Section Steps.

Variable table : ConfigTable.

Lemma get_property_own category p :
  table !! category = Some p → get_property table category = OwnPolicy p.
Proof. unfold get_property. by intros ->. Qed.

(** The reset-and-allow path. *)
Lemma check_reset now identifier category p s :
  table !! category = Some p →
  (∀ e, rateLimitStore s !! composite_key category identifier = Some e →
        expired now e = true) →
  (rateLimitCheckWith table now identifier category s).1 = Return true ∧
  rateLimitStore (rateLimitCheckWith table now identifier category s).2 =
    <[composite_key category identifier :=
        {| count := 1; resetTime := VNum (now + windowMs p) |}]>
      (rateLimitStore s).
Proof.
  intros Hp Hexp. unfold_ops. rewrite (get_property_own _ _ Hp).
  destruct (cleanupTimer s); simpl;
    (destruct (rateLimitStore s !! composite_key category identifier) as [e|] eqn:E;
     simpl; [rewrite (Hexp e eq_refl)|]; simpl; done).
Qed.

(** The increment path. *)
Lemma check_increment now identifier category p s e :
  table !! category = Some p →
  rateLimitStore s !! composite_key category identifier = Some e →
  expired now e = false →
  (rateLimitCheckWith table now identifier category s).1 =
    Return (bool_decide (count e + 1 ≤ maxRequests p)) ∧
  rateLimitStore (rateLimitCheckWith table now identifier category s).2 =
    <[composite_key category identifier :=
        {| count := count e + 1; resetTime := resetTime e |}]>
      (rateLimitStore s).
Proof.
  intros Hp He Hexp. unfold_ops. rewrite (get_property_own _ _ Hp).
  destruct (cleanupTimer s); simpl; rewrite He; simpl; rewrite Hexp; simpl.
  all: destruct (Z.gtb_spec (count e + 1) (maxRequests p)); simpl.
  all: split; [f_equal; symmetry|done].
  all: try (apply bool_decide_eq_false; lia).
  all: apply bool_decide_eq_true; lia.
Qed.

(** A category the table does not resolve, on the reset path: the read of
    [config.windowMs] throws while the argument of [set] is being built. *)
Lemma check_undefined_reset now identifier category s :
  get_property table category = Undefined →
  (∀ e, rateLimitStore s !! composite_key category identifier = Some e →
        expired now e = true) →
  (rateLimitCheckWith table now identifier category s).1 = Throw TypeError ∧
  rateLimitStore (rateLimitCheckWith table now identifier category s).2 =
    rateLimitStore s.
Proof.
  intros Hu Hexp. unfold_ops. rewrite Hu.
  destruct (cleanupTimer s); simpl;
    (destruct (rateLimitStore s !! composite_key category identifier) as [e|] eqn:E;
     simpl; [rewrite (Hexp e eq_refl)|]; simpl; done).
Qed.

(** The same category inside a running window: the count is incremented
    before [config.maxRequests] is read, and the read throws. *)
Lemma check_undefined_increment now identifier category s e :
  get_property table category = Undefined →
  rateLimitStore s !! composite_key category identifier = Some e →
  expired now e = false →
  (rateLimitCheckWith table now identifier category s).1 = Throw TypeError ∧
  rateLimitStore (rateLimitCheckWith table now identifier category s).2 =
    <[composite_key category identifier :=
        {| count := count e + 1; resetTime := resetTime e |}]>
      (rateLimitStore s).
Proof.
  intros Hu He Hexp. unfold_ops. rewrite Hu.
  destruct (cleanupTimer s); simpl; rewrite He; simpl; rewrite Hexp; done.
Qed.

(** Whatever the category, a check leaves the store as it was, or writes a
    fresh entry with count 1 under its key, or adds one to the count of the
    entry under its key. *)
Lemma check_store_cases now identifier category s :
  let key := composite_key category identifier in
  let store' := rateLimitStore (rateLimitCheckWith table now identifier category s).2 in
  store' = rateLimitStore s ∨
  (∃ r, store' = <[key := {| count := 1; resetTime := r |}]> (rateLimitStore s)) ∨
  (∃ e, rateLimitStore s !! key = Some e ∧
        store' = <[key := {| count := count e + 1; resetTime := resetTime e |}]>
                   (rateLimitStore s)).
Proof.
  intros key store'. subst store' key. unfold_ops.
  destruct (cleanupTimer s); simpl;
    (destruct (rateLimitStore s !! composite_key category identifier) as [e|] eqn:E;
     simpl; [destruct (expired now e) eqn:X; simpl|]);
    destruct (get_property table category); simpl;
    try (destruct (_ >? _); simpl); eauto.
Qed.

(** A check touches no key but its own. *)
Lemma check_frame now identifier category s k :
  k ≠ composite_key category identifier →
  rateLimitStore (rateLimitCheckWith table now identifier category s).2 !! k =
    rateLimitStore s !! k.
Proof.
  intros Hk.
  destruct (check_store_cases now identifier category s)
    as [-> | [[r ->] | (e & _ & ->)]];
    [done | by rewrite lookup_insert_ne | by rewrite lookup_insert_ne].
Qed.

(** The quota query never writes. *)
Lemma remaining_state now identifier category s :
  (getRateLimitRemainingWith table now identifier category s).2 = s.
Proof.
  unfold_ops. simpl.
  destruct (rateLimitStore s !! composite_key category identifier) as [e|];
    simpl; [destruct (expired now e); simpl|];
    destruct (get_property table category); done.
Qed.

Lemma remaining_fresh now identifier category p s :
  table !! category = Some p →
  (∀ e, rateLimitStore s !! composite_key category identifier = Some e →
        expired now e = true) →
  (getRateLimitRemainingWith table now identifier category s).1 =
    Return (VNum (maxRequests p)).
Proof.
  intros Hp Hexp. unfold_ops. rewrite (get_property_own _ _ Hp). simpl.
  destruct (rateLimitStore s !! composite_key category identifier) as [e|] eqn:E;
    simpl; [rewrite (Hexp e eq_refl)|]; done.
Qed.

Lemma remaining_running now identifier category p s e :
  table !! category = Some p →
  rateLimitStore s !! composite_key category identifier = Some e →
  expired now e = false →
  (getRateLimitRemainingWith table now identifier category s).1 =
    Return (VNum (Z.max 0 (maxRequests p - count e))).
Proof.
  intros Hp He Hexp. unfold_ops. rewrite (get_property_own _ _ Hp). simpl.
  rewrite He. simpl. rewrite Hexp. done.
Qed.

End Steps.

(** ** The cleanup loop *)

Section Cleanup.

Variable now : Z.
Implicit Types (m : gmap string RateLimitEntry).
Implicit Types (items : list (string * RateLimitEntry)).

(** The loop never adds a key. *)
Lemma cleanup_loop_absent items m k :
  m !! k = None → cleanup_loop now items m !! k = None.
Proof.
  revert m. induction items as [|[k' e'] items IH]; intros m Hm; simpl; [done|].
  apply IH. unfold cleanup_visit; simpl.
  destruct (expired now e'); [|done].
  apply lookup_delete_None; by right.
Qed.

(** A visited entry that is expired is gone when the loop ends. *)
Lemma cleanup_loop_deletes items m k e :
  (k, e) ∈ items → expired now e = true →
  cleanup_loop now items m !! k = None.
Proof.
  revert m. induction items as [|item items IH]; intros m Hin Hexp.
  - by apply elem_of_nil in Hin.
  - apply elem_of_cons in Hin as [<- | Hin]; simpl.
    + apply cleanup_loop_absent. unfold cleanup_visit; simpl.
      rewrite Hexp. apply lookup_delete_eq.
    + by apply IH.
Qed.

(** A key visited only with unexpired entries keeps what it maps to. *)
Lemma cleanup_loop_keeps items m k :
  (∀ e, (k, e) ∈ items → expired now e = false) →
  cleanup_loop now items m !! k = m !! k.
Proof.
  revert m. induction items as [|[k' e'] items IH]; intros m Hk; simpl; [done|].
  rewrite IH by (intros e ?; apply Hk; by right).
  unfold cleanup_visit; simpl. destruct (expired now e') eqn:X; [|done].
  apply lookup_delete_ne. intros ->.
  rewrite Hk in X; [done | by left].
Qed.

(** Whatever the order in which the entries of the store are visited, the
    loop removes the expired ones and nothing else. *)
Lemma cleanup_loop_lookup items m k :
  items ≡ₚ map_to_list m →
  cleanup_loop now items m !! k =
    (e ← m !! k; if expired now e then None else Some e).
Proof.
  intros Hperm.
  assert (Hin : ∀ e, (k, e) ∈ items ↔ m !! k = Some e).
  { intros e. rewrite Hperm. apply elem_of_map_to_list. }
  destruct (m !! k) as [e|] eqn:E; simpl.
  - destruct (expired now e) eqn:X.
    + apply cleanup_loop_deletes with e; [by apply Hin | done].
    + rewrite cleanup_loop_keeps; [done|].
      intros e' He'. apply Hin in He'. congruence.
  - by apply cleanup_loop_absent.
Qed.

Lemma cleanup_callback_lookup s k :
  rateLimitStore (cleanup_callback now s) !! k =
    (e ← rateLimitStore s !! k; if expired now e then None else Some e).
Proof. simpl. by apply cleanup_loop_lookup. Qed.

End Cleanup.

(** ** Composite keys of the declared categories *)

Lemma declared_categories category p :
  RATE_LIMIT_CONFIG !! category = Some p →
  (category = "default" ∧ p = {| maxRequests := 100; windowMs := 900000 |}) ∨
  (category = "auth" ∧ p = {| maxRequests := 20; windowMs := 900000 |}) ∨
  (category = "booking" ∧ p = {| maxRequests := 50; windowMs := 900000 |}).
Proof.
  unfold RATE_LIMIT_CONFIG.
  rewrite !lookup_insert_Some, lookup_empty.
  intros [[<- <-]|[_ [[<- <-]|[_ [[<- <-]|[_ ?]]]]]]; [auto..|done].
Qed.

Lemma declared_limit_positive category p :
  RATE_LIMIT_CONFIG !! category = Some p → 1 ≤ maxRequests p.
Proof.
  intros H. destruct (declared_categories _ _ H) as [[_ ->]|[[_ ->]|[_ ->]]];
    simpl; lia.
Qed.

(** No declared category contains a colon or is a prefix of another, so the
    composite key determines the pair it was built from. *)
Lemma composite_key_declared_inj c1 i1 p1 c2 i2 p2 :
  RATE_LIMIT_CONFIG !! c1 = Some p1 →
  RATE_LIMIT_CONFIG !! c2 = Some p2 →
  composite_key c1 i1 = composite_key c2 i2 →
  c1 = c2 ∧ i1 = i2.
Proof.
  intros H1 H2 Hkey.
  destruct (declared_categories _ _ H1) as [[-> _]|[[-> _]|[-> _]]];
  destruct (declared_categories _ _ H2) as [[-> _]|[[-> _]|[-> _]]];
  cbv in Hkey; by simplify_eq.
Qed.

(** ** Runs of checks *)

Lemma run_checks_cons identifier category now times s :
  run_checks identifier category (now :: times) s =
    let r := rateLimitCheck now identifier category s in
    let rs := run_checks identifier category times r.2 in
    (r.1 :: rs.1, rs.2).
Proof.
  simpl. destruct (rateLimitCheck now identifier category s) as [r s1]; simpl.
  by destruct (run_checks identifier category times s1).
Qed.

Lemma run_checks_length identifier category times s :
  length (run_checks identifier category times s).1 = length times.
Proof.
  revert s. induction times as [|now times IH]; intros s; [done|].
  rewrite run_checks_cons. simpl. by rewrite IH.
Qed.

(** Inside a running window the [j]-th further check (from 0) is admitted
    exactly when the count it reaches is within the limit. *)
Lemma run_checks_running identifier category p times :
  RATE_LIMIT_CONFIG !! category = Some p →
  ∀ s e r,
    rateLimitStore s !! composite_key category identifier = Some e →
    resetTime e = VNum r →
    Forall (λ t, t ≤ r) times →
    ∀ j res,
      (run_checks identifier category times s).1 !! j = Some res →
      res = Return (bool_decide (count e + Z.of_nat j + 1 ≤ maxRequests p)).
Proof.
  intros Hp. induction times as [|now times IH]; intros s e r He Hr Hts j res Hj.
  { done. }
  rewrite run_checks_cons in Hj. simpl in Hj.
  apply Forall_cons in Hts as [Hnow Hts].
  assert (Hexp : expired now e = false).
  { unfold expired. rewrite Hr. simpl. lia. }
  destruct (check_increment RATE_LIMIT_CONFIG now identifier category p s e
              Hp He Hexp) as [Hres Hstore].
  destruct j as [|j]; simpl in Hj.
  - injection Hj as <-. unfold rateLimitCheck.
    rewrite Hres. do 2 f_equal. by rewrite Z.add_0_r.
  - eapply (IH _ {| count := count e + 1; resetTime := resetTime e |} r)
      in Hj; [| |done|done].
    + rewrite Hj. simpl. f_equal. apply bool_decide_ext. lia.
    + unfold rateLimitCheck. rewrite Hstore. apply lookup_insert_eq.
Qed.

(** ** Limit enforcement *)

(** C1. For a declared category with policy [p] and a key with no entry in
    the store, consecutive checks on that key, the first at [t0] and the
    others at any clock values before the reset time [t0 + windowMs p] of the
    entry the first one creates, return normally, and call number [i + 1]
    returns [true] exactly when [i < maxRequests p]: the first [maxRequests p]
    calls are admitted, call [maxRequests p + 1] and all later calls of the
    window are refused. *)
Theorem limit_enforcement category p identifier s t0 times :
  RATE_LIMIT_CONFIG !! category = Some p →
  rateLimitStore s !! composite_key category identifier = None →
  Forall (λ t, t < t0 + windowMs p) times →
  let results := (run_checks identifier category (t0 :: times) s).1 in
  length results = S (length times) ∧
  ∀ i, (i < length results)%nat →
       results !! i =
         Some (Return (bool_decide (Z.of_nat i < maxRequests p))).
Proof.
  intros Hp Hnone Hts results.
  assert (Hlen : length results = S (length times)).
  { subst results. by rewrite run_checks_length. }
  split; [done|]. intros i Hi.
  destruct (lookup_lt_is_Some_2 results i Hi) as [res Hres].
  rewrite Hres. f_equal. subst results.
  rewrite run_checks_cons in Hres. simpl in Hres.
  destruct (check_reset RATE_LIMIT_CONFIG t0 identifier category p s Hp)
    as [Hfirst Hstore].
  { intros e He. congruence. }
  pose proof (declared_limit_positive _ _ Hp) as Hpos.
  destruct i as [|j]; simpl in Hres.
  - injection Hres as <-. unfold rateLimitCheck. rewrite Hfirst.
    f_equal. symmetry. apply bool_decide_eq_true. lia.
  - eapply (run_checks_running identifier category p times Hp _
              {| count := 1; resetTime := VNum (t0 + windowMs p) |}
              (t0 + windowMs p)) in Hres.
    + rewrite Hres. simpl. f_equal. apply bool_decide_ext. lia.
    + unfold rateLimitCheck. rewrite Hstore. apply lookup_insert_eq.
    + done.
    + eapply Forall_impl; [exact Hts|]. simpl. intros; lia.
Qed.

Lemma limit_enforcement_witness :
  let results :=
    (run_checks "1.2.3.4" "auth" (1000 :: replicate 21 2000) initial).1 in
  length results = 22%nat ∧
  ∀ i, (i < length results)%nat →
       results !! i = Some (Return (bool_decide (Z.of_nat i < 20))).
Proof.
  apply (limit_enforcement "auth" {| maxRequests := 20; windowMs := 900000 |}
           "1.2.3.4" initial 1000 (replicate 21 2000)).
  - vm_compute. reflexivity.
  - vm_compute. reflexivity.
  - apply Forall_replicate. simpl. lia.
Defined.

(** The scenario of the usage notes: twenty admissions for ["auth"], then a
    refusal; five checks leave a quota of fifteen; once the window is over
    the next check is admitted and leaves nineteen. *)
Example auth_scenario :
  let run := run_checks "1.2.3.4" "auth" (replicate 21 1000) initial in
  run.1 = replicate 20 (Return true) ++ [Return false] ∧
  (getRateLimitRemaining 1000 "1.2.3.4" "auth"
     (run_checks "1.2.3.4" "auth" (replicate 5 1000) initial).2).1 =
    Return (VNum 15) ∧
  let late := rateLimitCheck 901001 "1.2.3.4" "auth" run.2 in
  late.1 = Return true ∧
  (getRateLimitRemaining 901001 "1.2.3.4" "auth" late.2).1 = Return (VNum 19).
Proof. vm_compute. repeat split. Qed.

(** ** Categories the table does not resolve *)

(** C2, as stated, fails.  Category ["default:a"] is not in the table, yet
    with identifier ["b"] it shares the key ["default:a:b"] with the declared
    pair (["default"], ["a:b"]).  Inside that pair's window the check throws,
    but only after it has incremented the stored count. *)
Lemma undeclared_category_counterexample :
  let s := (rateLimitCheck 1000 "a:b" "default" initial).2 in
  let r := rateLimitCheck 2000 "b" "default:a" s in
  RATE_LIMIT_CONFIG !! "default:a" = None ∧
  r.1 = Throw TypeError ∧
  rateLimitStore s !! "default:a:b" =
    Some {| count := 1; resetTime := VNum 901000 |} ∧
  rateLimitStore r.2 !! "default:a:b" =
    Some {| count := 2; resetTime := VNum 901000 |} ∧
  rateLimitStore r.2 ≠ rateLimitStore s.
Proof.
  repeat split; try (vm_compute; reflexivity).
  intros H. apply (f_equal (λ m, m !! "default:a:b")) in H.
  vm_compute in H. discriminate H.
Qed.

(** A name inherited from [Object.prototype] is not in the table either, but
    the lookup finds it: the check then returns [true], stores an entry whose
    reset time is [NaN], and throws nothing. *)
Example inherited_name_admitted :
  let r := rateLimitCheck 1000 "x" "toString" initial in
  RATE_LIMIT_CONFIG !! "toString" = None ∧
  r.1 = Return true ∧
  rateLimitStore r.2 !! "toString:x" = Some {| count := 1; resetTime := VNaN |}.
Proof. vm_compute. repeat split. Qed.

(** C2, amended.  When [RATE_LIMIT_CONFIG[category]] evaluates to
    [undefined] and the store holds no unexpired entry under the composite
    key, [rateLimitCheck] throws a [TypeError] and leaves the store as it
    was. *)
Theorem unresolved_category_throws now identifier category s :
  get_property RATE_LIMIT_CONFIG category = Undefined →
  (∀ e, rateLimitStore s !! composite_key category identifier = Some e →
        expired now e = true) →
  (rateLimitCheck now identifier category s).1 = Throw TypeError ∧
  rateLimitStore (rateLimitCheck now identifier category s).2 =
    rateLimitStore s.
Proof. apply check_undefined_reset. Qed.

Lemma unresolved_category_throws_witness :
  let s := (rateLimitCheck 1000 "a:b" "default" initial).2 in
  (rateLimitCheck 1000000 "b" "default:a" s).1 = Throw TypeError ∧
  rateLimitStore (rateLimitCheck 1000000 "b" "default:a" s).2 =
    rateLimitStore s.
Proof.
  apply (unresolved_category_throws 1000000 "b" "default:a").
  - vm_compute. reflexivity.
  - intros e He. vm_compute in He. injection He as <-. vm_compute. reflexivity.
Defined.

(** ** The quota query *)

(** C3. For a declared category with policy [p], [getRateLimitRemaining]
    returns [maxRequests p] when the key has no entry or an expired one, and
    [max(0, maxRequests p - count)] otherwise; the state it leaves is the
    state it found. *)
Theorem remaining_quota now identifier category p s :
  RATE_LIMIT_CONFIG !! category = Some p →
  getRateLimitRemaining now identifier category s =
    (Return (VNum
       match rateLimitStore s !! composite_key category identifier with
       | None => maxRequests p
       | Some e =>
           if expired now e then maxRequests p
           else Z.max 0 (maxRequests p - count e)
       end), s).
Proof.
  intros Hp. unfold getRateLimitRemaining.
  apply injective_projections; simpl; [|apply remaining_state].
  destruct (rateLimitStore s !! composite_key category identifier) as [e|] eqn:E.
  - destruct (expired now e) eqn:X.
    + apply remaining_fresh with (p := p); [done|]. intros e' He'. congruence.
    + by apply remaining_running.
  - apply remaining_fresh with (p := p); [done|]. intros e' He'. congruence.
Qed.

Lemma remaining_quota_witness :
  let s := (run_checks "1.2.3.4" "auth" (replicate 5 1000) initial).2 in
  getRateLimitRemaining 2000 "1.2.3.4" "auth" s = (Return (VNum 15), s).
Proof.
  intros s.
  exact (remaining_quota 2000 "1.2.3.4" "auth"
           {| maxRequests := 20; windowMs := 900000 |} s eq_refl).
Defined.

(** ** Window transitions *)

(** C4, as stated, fails at [now = resetTime].  The entry created at 1000
    for ["auth"] has reset time 901000; a check at exactly 901000 does not
    reset it but counts in place. *)
Lemma reset_boundary_counterexample :
  let s := (rateLimitCheck 1000 "1.2.3.4" "auth" initial).2 in
  let r := rateLimitCheck 901000 "1.2.3.4" "auth" s in
  rateLimitStore s !! "auth:1.2.3.4" =
    Some {| count := 1; resetTime := VNum 901000 |} ∧
  901000 >= 901000 ∧
  rateLimitStore r.2 !! "auth:1.2.3.4" =
    Some {| count := 2; resetTime := VNum 901000 |} ∧
  rateLimitStore r.2 !! "auth:1.2.3.4" ≠
    Some {| count := 1; resetTime := VNum (901000 + 900000) |}.
Proof.
  repeat split; try (vm_compute; reflexivity).
  - lia.
  - vm_compute. discriminate.
Qed.

(** C4, amended.  For a declared category with policy [p] and a key whose
    entry has reset time [r]: a check at [now > r] replaces the entry with
    count 1 and reset time [now + windowMs p] and returns [true]; a check at
    [now <= r] adds one to the count in place and keeps the reset time. *)
Theorem window_transitions now identifier category p s e r :
  RATE_LIMIT_CONFIG !! category = Some p →
  rateLimitStore s !! composite_key category identifier = Some e →
  resetTime e = VNum r →
  let res := rateLimitCheck now identifier category s in
  (r < now →
     res.1 = Return true ∧
     rateLimitStore res.2 =
       <[composite_key category identifier :=
           {| count := 1; resetTime := VNum (now + windowMs p) |}]>
         (rateLimitStore s)) ∧
  (now ≤ r →
     rateLimitStore res.2 =
       <[composite_key category identifier :=
           {| count := count e + 1; resetTime := VNum r |}]>
         (rateLimitStore s)).
Proof.
  intros Hp He Hr res. subst res. unfold rateLimitCheck. split; intros Hnow.
  - apply check_reset; [done|]. intros e' He'.
    assert (e' = e) as -> by congruence.
    unfold expired. rewrite Hr. simpl. lia.
  - rewrite <- Hr. eapply check_increment; [done..|].
    unfold expired. rewrite Hr. simpl. lia.
Qed.

Lemma window_transitions_witness :
  let s := (rateLimitCheck 1000 "1.2.3.4" "auth" initial).2 in
  (rateLimitCheck 901001 "1.2.3.4" "auth" s).1 = Return true ∧
  rateLimitStore (rateLimitCheck 901001 "1.2.3.4" "auth" s).2 =
    <["auth:1.2.3.4" := {| count := 1; resetTime := VNum 1801001 |}]>
      (rateLimitStore s) ∧
  rateLimitStore (rateLimitCheck 901000 "1.2.3.4" "auth" s).2 =
    <["auth:1.2.3.4" := {| count := 2; resetTime := VNum 901000 |}]>
      (rateLimitStore s).
Proof.
  intros s.
  pose proof (window_transitions 901001 "1.2.3.4" "auth"
                {| maxRequests := 20; windowMs := 900000 |} s
                {| count := 1; resetTime := VNum 901000 |} 901000
                eq_refl eq_refl eq_refl) as [Hreset _].
  pose proof (window_transitions 901000 "1.2.3.4" "auth"
                {| maxRequests := 20; windowMs := 900000 |} s
                {| count := 1; resetTime := VNum 901000 |} 901000
                eq_refl eq_refl eq_refl) as [_ Hcount].
  destruct Hreset as [H1 H2]; [lia|].
  split; [exact H1|]. split; [exact H2|]. apply Hcount. lia.
Defined.

(** C5. For a declared category with policy [p] and a key whose entry is
    not expired, a check stores the count plus one, with the reset time
    unchanged, whatever it returns; it returns [true] when the new count is
    at most [maxRequests p] and [false] when it is larger, and the refused
    check's increment stays in the store. *)
Theorem rejected_checks_count now identifier category p s e :
  RATE_LIMIT_CONFIG !! category = Some p →
  rateLimitStore s !! composite_key category identifier = Some e →
  expired now e = false →
  let res := rateLimitCheck now identifier category s in
  res.1 = Return (bool_decide (count e + 1 ≤ maxRequests p)) ∧
  rateLimitStore res.2 =
    <[composite_key category identifier :=
        {| count := count e + 1; resetTime := resetTime e |}]>
      (rateLimitStore s).
Proof. intros Hp He Hexp. by apply check_increment. Qed.

Lemma rejected_checks_count_witness :
  let s := (run_checks "1.2.3.4" "auth" (replicate 20 1000) initial).2 in
  (rateLimitCheck 2000 "1.2.3.4" "auth" s).1 = Return false ∧
  rateLimitStore (rateLimitCheck 2000 "1.2.3.4" "auth" s).2 =
    <["auth:1.2.3.4" := {| count := 21; resetTime := VNum 901000 |}]>
      (rateLimitStore s).
Proof.
  intros s.
  exact (rejected_checks_count 2000 "1.2.3.4" "auth"
           {| maxRequests := 20; windowMs := 900000 |} s
           {| count := 20; resetTime := VNum 901000 |}
           eq_refl eq_refl eq_refl).
Defined.

(** ** Independence of keys *)

(** C6. Two different pairs of a declared category and an identifier have
    different composite keys, and a check on one pair leaves the entry of
    the other as it was. *)
Theorem key_independence c1 i1 p1 c2 i2 p2 now s :
  RATE_LIMIT_CONFIG !! c1 = Some p1 →
  RATE_LIMIT_CONFIG !! c2 = Some p2 →
  (c1, i1) ≠ (c2, i2) →
  composite_key c1 i1 ≠ composite_key c2 i2 ∧
  rateLimitStore (rateLimitCheck now i1 c1 s).2 !! composite_key c2 i2 =
    rateLimitStore s !! composite_key c2 i2.
Proof.
  intros H1 H2 Hne.
  assert (Hkey : composite_key c1 i1 ≠ composite_key c2 i2).
  { intros Hk.
    destruct (composite_key_declared_inj _ _ _ _ _ _ H1 H2 Hk) as [-> ->].
    by apply Hne. }
  split; [done|]. apply check_frame. congruence.
Qed.

Lemma key_independence_witness :
  let s := (rateLimitCheck 1000 "1.2.3.4" "default" initial).2 in
  composite_key "auth" "1.2.3.4" ≠ composite_key "default" "1.2.3.4" ∧
  rateLimitStore (rateLimitCheck 2000 "1.2.3.4" "auth" s).2
    !! composite_key "default" "1.2.3.4" =
    rateLimitStore s !! composite_key "default" "1.2.3.4".
Proof.
  intros s.
  apply (key_independence "auth" "1.2.3.4"
           {| maxRequests := 20; windowMs := 900000 |}
           "default" "1.2.3.4"
           {| maxRequests := 100; windowMs := 900000 |} 2000 s).
  - reflexivity.
  - reflexivity.
  - intros H. discriminate H.
Defined.

(** ** The first request of a window *)

(** C7. Whatever the table and whatever the policy [p] it gives the
    category, [maxRequests p = 0] included, a check that finds no entry
    under the key, or an expired one, returns [true]. *)
Theorem first_request_admitted table now identifier category p s :
  table !! category = Some p →
  (∀ e, rateLimitStore s !! composite_key category identifier = Some e →
        expired now e = true) →
  (rateLimitCheckWith table now identifier category s).1 = Return true.
Proof. intros Hp Hexp. by apply (check_reset table now identifier category p s). Qed.

Lemma first_request_admitted_witness :
  let table : ConfigTable :=
    {[ "closed" := {| maxRequests := 0; windowMs := 1000 |} ]} in
  let s := (rateLimitCheckWith table 0 "1.2.3.4" "closed" initial).2 in
  (rateLimitCheckWith table 0 "1.2.3.4" "closed" initial).1 = Return true ∧
  (rateLimitCheckWith table 500 "1.2.3.4" "closed" s).1 = Return false ∧
  (rateLimitCheckWith table 1001 "1.2.3.4" "closed" s).1 = Return true.
Proof.
  intros table s. split; [|split].
  - apply (first_request_admitted table 0 "1.2.3.4" "closed"
             {| maxRequests := 0; windowMs := 1000 |} initial).
    + reflexivity.
    + intros e He. vm_compute in He. discriminate He.
  - vm_compute. reflexivity.
  - apply (first_request_admitted table 1001 "1.2.3.4" "closed"
             {| maxRequests := 0; windowMs := 1000 |} s).
    + reflexivity.
    + intros e He. vm_compute in He. injection He as <-. reflexivity.
Defined.

(** ** The sweep *)

(** C8. One run of the cleanup callback at clock value [t] removes exactly
    the entries with [t > resetTime] and leaves every other entry as it was;
    a second run at the same [t] changes nothing. *)
Theorem sweep_exact_and_idempotent t s :
  (∀ k, rateLimitStore (cleanup_callback t s) !! k =
          (e ← rateLimitStore s !! k;
           if expired t e then None else Some e)) ∧
  cleanup_callback t (cleanup_callback t s) = cleanup_callback t s.
Proof.
  split; [apply cleanup_callback_lookup|].
  assert (Hstore : rateLimitStore (cleanup_callback t (cleanup_callback t s)) =
                   rateLimitStore (cleanup_callback t s)).
  { apply map_eq. intros k. rewrite !cleanup_callback_lookup.
    destruct (rateLimitStore s !! k) as [e|]; simpl; [|done].
    destruct (expired t e) eqn:X; simpl; [done|]. by rewrite X. }
  unfold cleanup_callback at 1. simpl in Hstore |- *. by rewrite Hstore.
Qed.

Example sweep_scenario :
  let s := (rateLimitCheck 500000 "5.6.7.8" "booking"
              (rateLimitCheck 1000 "1.2.3.4" "auth" initial).2).2 in
  let s' := cleanup_callback 1000000 s in
  rateLimitStore s' !! "auth:1.2.3.4" = None ∧
  rateLimitStore s' !! "booking:5.6.7.8" =
    Some {| count := 1; resetTime := VNum 1400000 |}.
Proof. vm_compute. repeat split. Qed.

(** ** Counts of reachable states *)

(** C10. In every reachable state every entry of the store has a count of
    at least 1. *)
Theorem reachable_count_positive s :
  reachable s →
  ∀ k e, rateLimitStore s !! k = Some e → 1 ≤ count e.
Proof.
  induction 1 as [|now identifier category s Hs IH
                  |now identifier category s Hs IH
                  |now s Hs IH Htimer]; intros k e' Hk.
  - simpl in Hk. by rewrite lookup_empty in Hk.
  - unfold rateLimitCheck in Hk.
    destruct (check_store_cases RATE_LIMIT_CONFIG now identifier category s)
      as [Heq | [[r Heq] | (e & He & Heq)]]; rewrite Heq in Hk.
    + by eapply IH.
    + apply lookup_insert_Some in Hk as [[_ <-] | [_ Hk]]; simpl; [lia|].
      by eapply IH.
    + apply lookup_insert_Some in Hk as [[_ <-] | [_ Hk]]; simpl.
      * apply IH in He. lia.
      * by eapply IH.
  - unfold getRateLimitRemaining in Hk. rewrite remaining_state in Hk.
    by eapply IH.
  - rewrite cleanup_callback_lookup in Hk.
    destruct (rateLimitStore s !! k) as [e|] eqn:E; simpl in Hk; [|done].
    destruct (expired now e); [done|]. injection Hk as <-. by eapply IH.
Qed.

Lemma reachable_count_positive_witness :
  let s := (rateLimitCheck 2000 "1.2.3.4" "auth"
              (rateLimitCheck 1000 "1.2.3.4" "auth" initial).2).2 in
  rateLimitStore s !! "auth:1.2.3.4" =
    Some {| count := 2; resetTime := VNum 901000 |} ∧
  1 ≤ 2.
Proof.
  intros s. split; [reflexivity|].
  apply (reachable_count_positive s) with
    (k := "auth:1.2.3.4"%string)
    (e := {| count := 2; resetTime := VNum 901000 |}).
  - apply (reach_check 2000 "1.2.3.4" "auth").
    apply (reach_check 1000 "1.2.3.4" "auth").
    apply reach_initial.
  - reflexivity.
Defined.

(** * Further properties of the rate limiter *)

(** ** What a check does to the timer *)

Lemma check_timer table now identifier category s :
  cleanupTimer (rateLimitCheckWith table now identifier category s).2 =
    match cleanupTimer s with
    | Some t => Some t
    | None => Some (Interval CLEANUP_INTERVAL)
    end.
Proof.
  unfold_ops.
  destruct (cleanupTimer s) eqn:T; simpl;
    (destruct (rateLimitStore s !! composite_key category identifier) as [e|];
     simpl; [destruct (expired now e); simpl|]);
    destruct (get_property table category); simpl;
    try (destruct (_ >? _); simpl); by rewrite ?T.
Qed.

(** The invariant of the reachable states: counts are positive, and the
    store holds entries only when the cleanup timer is installed, with the
    period [CLEANUP_INTERVAL]. *)
Lemma reachable_invariant s :
  reachable s →
  (∀ k e, rateLimitStore s !! k = Some e → 1 ≤ count e) ∧
  (cleanupTimer s = Some (Interval CLEANUP_INTERVAL) ∨
   cleanupTimer s = None ∧ rateLimitStore s = ∅).
Proof.
  induction 1 as [|now identifier category s Hs [IHc IHt]
                  |now identifier category s Hs [IHc IHt]
                  |now s Hs [IHc IHt] Htimer].
  - split; [|by right]. intros k e Hk. simpl in Hk.
    by rewrite lookup_empty in Hk.
  - unfold rateLimitCheck. split.
    + intros k e' Hk.
      destruct (check_store_cases RATE_LIMIT_CONFIG now identifier category s)
        as [Heq | [[r Heq] | (e & He & Heq)]]; rewrite Heq in Hk.
      * by eapply IHc.
      * apply lookup_insert_Some in Hk as [[_ <-] | [_ Hk]]; simpl; [lia|].
        by eapply IHc.
      * apply lookup_insert_Some in Hk as [[_ <-] | [_ Hk]]; simpl.
        -- apply IHc in He. lia.
        -- by eapply IHc.
    + left. rewrite check_timer. by destruct IHt as [-> | [-> _]].
  - unfold getRateLimitRemaining. by rewrite remaining_state.
  - split.
    + intros k e' Hk. rewrite cleanup_callback_lookup in Hk.
      destruct (rateLimitStore s !! k) as [e|] eqn:E; simpl in Hk; [|done].
      destruct (expired now e); [done|]. injection Hk as <-. by eapply IHc.
    + left. simpl. destruct IHt as [-> | [HN _]]; [done|].
      rewrite HN in Htimer. by destruct Htimer.
Qed.

(** X1. In every reachable state the cleanup timer is either installed with
    the period [CLEANUP_INTERVAL], or it is not installed and the store is
    empty: no entry ever sits in the store without the sweep running. *)
Theorem entries_imply_timer s :
  reachable s →
  cleanupTimer s = Some (Interval CLEANUP_INTERVAL) ∨
  cleanupTimer s = None ∧ rateLimitStore s = ∅.
Proof. intros Hs. by apply reachable_invariant. Qed.

Lemma entries_imply_timer_witness :
  let s := (rateLimitCheck 2000 "5.6.7.8" "booking"
              (rateLimitCheck 1000 "1.2.3.4" "auth" initial).2).2 in
  cleanupTimer s = Some (Interval CLEANUP_INTERVAL) ∨
  cleanupTimer s = None ∧ rateLimitStore s = ∅.
Proof.
  intros s. apply (entries_imply_timer s).
  apply (reach_check 2000 "5.6.7.8" "booking").
  apply (reach_check 1000 "1.2.3.4" "auth").
  apply reach_initial.
Defined.

(** ** Lazy and eager expiry agree *)

Lemma expired_later t now e :
  t ≤ now → expired t e = true → expired now e = true.
Proof.
  unfold expired. destruct (resetTime e); simpl; [|done..].
  intros Hle Ht. apply Z.gtb_lt in Ht. apply Z.gtb_lt. lia.
Qed.

(** X2. A sweep that ran at a clock value [t <= now] is invisible to the
    callers of a declared category: the check returns the same result and
    leaves the same entry under the key as it would without the sweep, and
    the quota query returns the same number. *)
Theorem sweep_transparent t now identifier category p s :
  RATE_LIMIT_CONFIG !! category = Some p →
  t ≤ now →
  let key := composite_key category identifier in
  let swept := cleanup_callback t s in
  (rateLimitCheck now identifier category swept).1 =
    (rateLimitCheck now identifier category s).1 ∧
  rateLimitStore (rateLimitCheck now identifier category swept).2 !! key =
    rateLimitStore (rateLimitCheck now identifier category s).2 !! key ∧
  (getRateLimitRemaining now identifier category swept).1 =
    (getRateLimitRemaining now identifier category s).1.
Proof.
  intros Hp Hle key swept.
  pose proof (cleanup_callback_lookup t s key) as Hswept.
  change (cleanup_callback t s) with swept in Hswept.
  clearbody swept. subst key.
  set (key := composite_key category identifier) in *.
  unfold rateLimitCheck, getRateLimitRemaining.
  assert (Hfresh : ∀ s1 s2,
    (∀ e, rateLimitStore s1 !! key = Some e → expired now e = true) →
    (∀ e, rateLimitStore s2 !! key = Some e → expired now e = true) →
    (rateLimitCheckWith RATE_LIMIT_CONFIG now identifier category s1).1 =
      (rateLimitCheckWith RATE_LIMIT_CONFIG now identifier category s2).1 ∧
    rateLimitStore
      (rateLimitCheckWith RATE_LIMIT_CONFIG now identifier category s1).2 !! key =
    rateLimitStore
      (rateLimitCheckWith RATE_LIMIT_CONFIG now identifier category s2).2 !! key ∧
    (getRateLimitRemainingWith RATE_LIMIT_CONFIG now identifier category s1).1 =
      (getRateLimitRemainingWith RATE_LIMIT_CONFIG now identifier category s2).1).
  { intros s1 s2 H1 H2.
    destruct (check_reset _ now identifier category p s1 Hp H1) as [-> ->].
    destruct (check_reset _ now identifier category p s2 Hp H2) as [-> ->].
    rewrite (remaining_fresh _ now identifier category p s1 Hp H1).
    rewrite (remaining_fresh _ now identifier category p s2 Hp H2).
    by rewrite !lookup_insert_eq. }
  destruct (rateLimitStore s !! key) as [e|] eqn:E; simpl in Hswept.
  - destruct (expired t e) eqn:Xt; simpl in Hswept.
    + apply Hfresh.
      * intros e' He'. congruence.
      * intros e' He'. assert (e' = e) as -> by congruence.
        by apply expired_later with t.
    + destruct (expired now e) eqn:Xn.
      * apply Hfresh; intros e' He'; congruence.
      * destruct (check_increment _ now identifier category p swept e
                    Hp Hswept Xn) as [-> ->].
        destruct (check_increment _ now identifier category p s e
                    Hp E Xn) as [-> ->].
        rewrite (remaining_running _ now identifier category p swept e
                   Hp Hswept Xn).
        rewrite (remaining_running _ now identifier category p s e Hp E Xn).
        by rewrite !lookup_insert_eq.
  - apply Hfresh; intros e' He'; congruence.
Qed.

Lemma sweep_transparent_witness :
  let s := (rateLimitCheck 1000 "1.2.3.4" "auth" initial).2 in
  let swept := cleanup_callback 950000 s in
  rateLimitStore swept !! "auth:1.2.3.4" = None ∧
  (rateLimitCheck 960000 "1.2.3.4" "auth" swept).1 =
    (rateLimitCheck 960000 "1.2.3.4" "auth" s).1 ∧
  rateLimitStore (rateLimitCheck 960000 "1.2.3.4" "auth" swept).2
    !! composite_key "auth" "1.2.3.4" =
    rateLimitStore (rateLimitCheck 960000 "1.2.3.4" "auth" s).2
    !! composite_key "auth" "1.2.3.4" ∧
  (getRateLimitRemaining 960000 "1.2.3.4" "auth" swept).1 =
    (getRateLimitRemaining 960000 "1.2.3.4" "auth" s).1.
Proof.
  intros s swept. split; [vm_compute; reflexivity|].
  apply (sweep_transparent 950000 960000 "1.2.3.4" "auth"
           {| maxRequests := 20; windowMs := 900000 |} s).
  - reflexivity.
  - lia.
Defined.

(** ** The quota query and the check *)

(** The entry under the key after a check of a declared category is not
    expired at the clock value of the check. *)
Lemma declared_window_nonnegative category p :
  RATE_LIMIT_CONFIG !! category = Some p → 0 ≤ windowMs p.
Proof.
  intros H. destruct (declared_categories _ _ H) as [[_ ->]|[[_ ->]|[_ ->]]];
    simpl; lia.
Qed.

(** X3. For a declared category the quota query tells what the next check
    at the same clock value will answer: the check is admitted exactly when
    the remaining quota is positive. *)
Theorem quota_predicts_admission now identifier category p s :
  RATE_LIMIT_CONFIG !! category = Some p →
  ∃ n, (getRateLimitRemaining now identifier category s).1 = Return (VNum n) ∧
       (rateLimitCheck now identifier category s).1 =
         Return (bool_decide (0 < n)).
Proof.
  intros Hp. unfold rateLimitCheck, getRateLimitRemaining.
  pose proof (declared_limit_positive _ _ Hp) as Hpos.
  destruct (rateLimitStore s !! composite_key category identifier)
    as [e|] eqn:E; [destruct (expired now e) eqn:X|].
  - exists (maxRequests p). split.
    + apply remaining_fresh; [done|]. intros e' ?. congruence.
    + rewrite bool_decide_eq_true_2 by lia.
      apply (check_reset _ now identifier category p s Hp).
      intros e' ?. congruence.
  - exists (Z.max 0 (maxRequests p - count e)). split.
    + by apply remaining_running.
    + destruct (check_increment _ now identifier category p s e Hp E X)
        as [-> _]. f_equal. apply bool_decide_ext. lia.
  - exists (maxRequests p). split.
    + apply remaining_fresh; [done|]. intros e' ?. congruence.
    + rewrite bool_decide_eq_true_2 by lia.
      apply (check_reset _ now identifier category p s Hp).
      intros e' ?. congruence.
Qed.

Lemma quota_predicts_admission_witness :
  let s := (run_checks "1.2.3.4" "auth" (replicate 20 1000) initial).2 in
  ∃ n, (getRateLimitRemaining 2000 "1.2.3.4" "auth" s).1 = Return (VNum n) ∧
       (rateLimitCheck 2000 "1.2.3.4" "auth" s).1 =
         Return (bool_decide (0 < n)).
Proof.
  intros s.
  exact (quota_predicts_admission 2000 "1.2.3.4" "auth"
           {| maxRequests := 20; windowMs := 900000 |} s eq_refl).
Defined.

(** X4. For a declared category every check, admitted or refused, takes one
    unit off the quota the query reports at the same clock value, down to
    zero. *)
Theorem check_consumes_quota now identifier category p s :
  RATE_LIMIT_CONFIG !! category = Some p →
  ∃ n, (getRateLimitRemaining now identifier category s).1 = Return (VNum n) ∧
       (getRateLimitRemaining now identifier category
          (rateLimitCheck now identifier category s).2).1 =
         Return (VNum (Z.max 0 (n - 1))).
Proof.
  intros Hp. unfold rateLimitCheck, getRateLimitRemaining.
  pose proof (declared_limit_positive _ _ Hp) as Hpos.
  pose proof (declared_window_nonnegative _ _ Hp) as Hwin.
  assert (Hreset :
    (∀ e, rateLimitStore s !! composite_key category identifier = Some e →
          expired now e = true) →
    ∃ n, (getRateLimitRemainingWith RATE_LIMIT_CONFIG now identifier category
            s).1 = Return (VNum n) ∧
         (getRateLimitRemainingWith RATE_LIMIT_CONFIG now identifier category
            (rateLimitCheckWith RATE_LIMIT_CONFIG now identifier category s).2).1 =
           Return (VNum (Z.max 0 (n - 1)))).
  { intros Hexp. exists (maxRequests p). split; [by apply remaining_fresh|].
    destruct (check_reset _ now identifier category p s Hp Hexp) as [_ Hstore].
    rewrite (remaining_running _ now identifier category p _
               {| count := 1; resetTime := VNum (now + windowMs p) |} Hp).
    - done.
    - rewrite Hstore. apply lookup_insert_eq.
    - unfold expired. simpl. lia. }
  destruct (rateLimitStore s !! composite_key category identifier)
    as [e|] eqn:E; [destruct (expired now e) eqn:X|].
  - apply Hreset. intros e' ?. congruence.
  - exists (Z.max 0 (maxRequests p - count e)).
    split; [by apply remaining_running|].
    destruct (check_increment _ now identifier category p s e Hp E X)
      as [_ Hstore].
    rewrite (remaining_running _ now identifier category p _
               {| count := count e + 1; resetTime := resetTime e |} Hp).
    + simpl. do 2 f_equal. lia.
    + rewrite Hstore. apply lookup_insert_eq.
    + done.
  - apply Hreset. intros e' ?. congruence.
Qed.

Lemma check_consumes_quota_witness :
  let s := (run_checks "1.2.3.4" "auth" (replicate 5 1000) initial).2 in
  ∃ n, (getRateLimitRemaining 2000 "1.2.3.4" "auth" s).1 = Return (VNum n) ∧
       (getRateLimitRemaining 2000 "1.2.3.4" "auth"
          (rateLimitCheck 2000 "1.2.3.4" "auth" s).2).1 =
         Return (VNum (Z.max 0 (n - 1))).
Proof.
  intros s.
  exact (check_consumes_quota 2000 "1.2.3.4" "auth"
           {| maxRequests := 20; windowMs := 900000 |} s eq_refl).
Defined.

(** X5. In every reachable state the quota query of a declared category
    returns a number between zero and the limit of the category. *)
Theorem remaining_within_limit now identifier category p s :
  reachable s →
  RATE_LIMIT_CONFIG !! category = Some p →
  ∃ n, (getRateLimitRemaining now identifier category s).1 = Return (VNum n) ∧
       0 ≤ n ≤ maxRequests p.
Proof.
  intros Hs Hp. unfold getRateLimitRemaining.
  pose proof (declared_limit_positive _ _ Hp) as Hpos.
  destruct (reachable_invariant s Hs) as [Hcount _].
  destruct (rateLimitStore s !! composite_key category identifier)
    as [e|] eqn:E; [destruct (expired now e) eqn:X|].
  - exists (maxRequests p). split; [|lia].
    apply remaining_fresh; [done|]. intros e' ?. congruence.
  - exists (Z.max 0 (maxRequests p - count e)).
    split; [by apply remaining_running|].
    apply Hcount in E. lia.
  - exists (maxRequests p). split; [|lia].
    apply remaining_fresh; [done|]. intros e' ?. congruence.
Qed.

Lemma remaining_within_limit_witness :
  let s := (rateLimitCheck 1000 "1.2.3.4" "auth" initial).2 in
  ∃ n, (getRateLimitRemaining 2000 "1.2.3.4" "auth" s).1 = Return (VNum n) ∧
       0 ≤ n ≤ 20.
Proof.
  intros s.
  apply (remaining_within_limit 2000 "1.2.3.4" "auth"
           {| maxRequests := 20; windowMs := 900000 |} s).
  - apply (reach_check 1000 "1.2.3.4" "auth"). apply reach_initial.
  - reflexivity.
Defined.

(** ** Counting admissions *)

(** The entry under the key after a run of checks inside its window. *)
Lemma run_checks_running_store identifier category p times :
  RATE_LIMIT_CONFIG !! category = Some p →
  ∀ s e r,
    rateLimitStore s !! composite_key category identifier = Some e →
    resetTime e = VNum r →
    Forall (λ t, t ≤ r) times →
    rateLimitStore (run_checks identifier category times s).2
      !! composite_key category identifier =
      Some {| count := count e + Z.of_nat (length times);
              resetTime := VNum r |}.
Proof.
  intros Hp. induction times as [|now times IH]; intros s e r He Hr Hts.
  { simpl. rewrite He, Z.add_0_r, <- Hr. by destruct e. }
  rewrite run_checks_cons. simpl.
  apply Forall_cons in Hts as [Hnow Hts].
  assert (Hexp : expired now e = false).
  { unfold expired. rewrite Hr. simpl. lia. }
  destruct (check_increment RATE_LIMIT_CONFIG now identifier category p s e
              Hp He Hexp) as [_ Hstore].
  rewrite (IH _ {| count := count e + 1; resetTime := resetTime e |} r);
    [|unfold rateLimitCheck; rewrite Hstore; apply lookup_insert_eq|done|done].
  simpl. do 2 f_equal. lia.
Qed.

Lemma run_checks_running_admissions identifier category p times :
  RATE_LIMIT_CONFIG !! category = Some p →
  ∀ s e r,
    rateLimitStore s !! composite_key category identifier = Some e →
    resetTime e = VNum r →
    Forall (λ t, t ≤ r) times →
    Z.of_nat (admissions (run_checks identifier category times s).1) =
      Z.min (Z.of_nat (length times)) (Z.max 0 (maxRequests p - count e)).
Proof.
  intros Hp. induction times as [|now times IH]; intros s e r He Hr Hts.
  { simpl. lia. }
  rewrite run_checks_cons. simpl.
  apply Forall_cons in Hts as [Hnow Hts].
  assert (Hexp : expired now e = false).
  { unfold expired. rewrite Hr. simpl. lia. }
  destruct (check_increment RATE_LIMIT_CONFIG now identifier category p s e
              Hp He Hexp) as [Hres Hstore].
  specialize (IH (rateLimitCheck now identifier category s).2
                {| count := count e + 1; resetTime := resetTime e |} r).
  simpl in IH.
  unfold rateLimitCheck in *. rewrite Hres.
  rewrite Hstore, lookup_insert_eq in IH.
  specialize (IH eq_refl Hr Hts).
  case_bool_decide; lia.
Qed.

(** X6. For a declared category and a key with no entry, any number of
    checks whose clock values lie in the window the first one opens are
    admitted [min(K, maxRequests)] times in total, [K] being the number of
    checks: never more than the limit, and never fewer while the limit is
    not reached. *)
Theorem admissions_in_window category p identifier s t0 times :
  RATE_LIMIT_CONFIG !! category = Some p →
  rateLimitStore s !! composite_key category identifier = None →
  Forall (λ t, t ≤ t0 + windowMs p) times →
  Z.of_nat (admissions (run_checks identifier category (t0 :: times) s).1) =
    Z.min (Z.of_nat (length (t0 :: times))) (maxRequests p).
Proof.
  intros Hp Hnone Hts.
  pose proof (declared_limit_positive _ _ Hp) as Hpos.
  rewrite run_checks_cons. simpl.
  destruct (check_reset RATE_LIMIT_CONFIG t0 identifier category p s Hp)
    as [Hfirst Hstore].
  { intros e He. congruence. }
  pose proof (run_checks_running_admissions identifier category p times Hp
                (rateLimitCheck t0 identifier category s).2
                {| count := 1; resetTime := VNum (t0 + windowMs p) |}
                (t0 + windowMs p)) as Hrun.
  unfold rateLimitCheck in *. rewrite Hfirst.
  rewrite Hstore, lookup_insert_eq in Hrun.
  specialize (Hrun eq_refl eq_refl Hts). simpl in Hrun. lia.
Qed.

Lemma admissions_in_window_witness :
  Z.of_nat (admissions
    (run_checks "1.2.3.4" "auth" (1000 :: replicate 29 2000) initial).1) =
    Z.min (Z.of_nat (length (1000 :: replicate 29 2000))) 20.
Proof.
  apply (admissions_in_window "auth"
           {| maxRequests := 20; windowMs := 900000 |}
           "1.2.3.4" initial 1000 (replicate 29 2000)).
  - reflexivity.
  - reflexivity.
  - apply Forall_replicate. simpl. lia.
Defined.

(** ** Fixed windows *)

Lemma run_checks_app identifier category times1 times2 s :
  run_checks identifier category (times1 ++ times2) s =
    let r1 := run_checks identifier category times1 s in
    let r2 := run_checks identifier category times2 r1.2 in
    (r1.1 ++ r2.1, r2.2).
Proof.
  revert s. induction times1 as [|now times1 IH]; intros s.
  { simpl. by destruct (run_checks identifier category times2 s). }
  rewrite <- app_comm_cons, !run_checks_cons. simpl. by rewrite IH.
Qed.

(** A run that opens a window and stays within it and within the limit is
    admitted throughout, and leaves the count of its calls. *)
Lemma run_checks_fresh_all_admitted identifier category p s t0 times :
  RATE_LIMIT_CONFIG !! category = Some p →
  (∀ e, rateLimitStore s !! composite_key category identifier = Some e →
        expired t0 e = true) →
  Forall (λ t, t ≤ t0 + windowMs p) times →
  1 + Z.of_nat (length times) ≤ maxRequests p →
  Forall (λ res, res = Return true)
    (run_checks identifier category (t0 :: times) s).1 ∧
  rateLimitStore (run_checks identifier category (t0 :: times) s).2
    !! composite_key category identifier =
    Some {| count := 1 + Z.of_nat (length times);
            resetTime := VNum (t0 + windowMs p) |}.
Proof.
  intros Hp Hfresh Hts Hlen.
  rewrite run_checks_cons. simpl.
  destruct (check_reset RATE_LIMIT_CONFIG t0 identifier category p s Hp Hfresh)
    as [Hfirst Hstore].
  assert (Hentry :
    rateLimitStore (rateLimitCheck t0 identifier category s).2
      !! composite_key category identifier =
      Some {| count := 1; resetTime := VNum (t0 + windowMs p) |}).
  { unfold rateLimitCheck. rewrite Hstore. apply lookup_insert_eq. }
  split.
  - apply Forall_cons. split; [exact Hfirst|].
    apply Forall_lookup. intros j res Hj.
    pose proof (lookup_lt_Some _ _ _ Hj) as Hlt.
    rewrite run_checks_length in Hlt.
    rewrite (run_checks_running identifier category p times Hp _ _ _
               Hentry eq_refl Hts j res Hj).
    simpl. f_equal. apply bool_decide_eq_true. lia.
  - by rewrite (run_checks_running_store identifier category p times Hp _ _ _
                  Hentry eq_refl Hts).
Qed.

(** X7. The window is fixed, not sliding.  For a declared category with
    limit [n] and a key with no entry, let [r] be the reset time of the
    window the first check opens.  That check, [n - 1] checks at [r] and [n]
    checks at [r + 1] are all admitted: [2n - 1] admissions within two
    consecutive clock values. *)
Theorem window_boundary_burst category p identifier s t0 :
  RATE_LIMIT_CONFIG !! category = Some p →
  rateLimitStore s !! composite_key category identifier = None →
  let r := t0 + windowMs p in
  let n := Z.to_nat (maxRequests p) in
  Forall (λ res, res = Return true)
    (run_checks identifier category
       (t0 :: replicate (n - 1) r ++ replicate n (r + 1)) s).1.
Proof.
  intros Hp Hnone r n.
  pose proof (declared_limit_positive _ _ Hp) as Hpos.
  pose proof (declared_window_nonnegative _ _ Hp) as Hwin.
  assert (Hn : n = S (n - 1)) by (subst n; lia).
  rewrite Hn at 2. simpl replicate.
  rewrite app_comm_cons, run_checks_app. cbv zeta. cbn [fst snd].
  destruct (run_checks_fresh_all_admitted identifier category p s t0
              (replicate (n - 1) r) Hp) as [Hfirst Hstore].
  { intros e He. congruence. }
  { apply Forall_replicate. subst r. lia. }
  { rewrite length_replicate. subst n. lia. }
  apply Forall_app. split; [exact Hfirst|].
  apply run_checks_fresh_all_admitted with (p := p); [done| | |].
  - intros e He. rewrite Hstore in He. injection He as <-.
    unfold expired. simpl. apply Z.gtb_lt. lia.
  - apply Forall_replicate. lia.
  - rewrite length_replicate. subst n. lia.
Qed.

Lemma window_boundary_burst_witness :
  Forall (λ res, res = Return true)
    (run_checks "1.2.3.4" "auth"
       (1000 :: replicate 19 901000 ++ replicate 20 901001) initial).1.
Proof.
  apply (window_boundary_burst "auth"
           {| maxRequests := 20; windowMs := 900000 |}
           "1.2.3.4" initial 1000).
  - reflexivity.
  - reflexivity.
Defined.

(** ** Categories outside the table *)

(** X8. When [RATE_LIMIT_CONFIG[category]] evaluates to [undefined], both
    exported functions throw a [TypeError] in every state.  The quota query
    leaves the state as it was.  The check leaves the store as it was,
    except when an unexpired entry sits under the composite key: then it has
    added one to its count before throwing. *)
Theorem unresolved_category_behaviour now identifier category s :
  get_property RATE_LIMIT_CONFIG category = Undefined →
  let key := composite_key category identifier in
  getRateLimitRemaining now identifier category s = (Throw TypeError, s) ∧
  (rateLimitCheck now identifier category s).1 = Throw TypeError ∧
  rateLimitStore (rateLimitCheck now identifier category s).2 =
    match rateLimitStore s !! key with
    | Some e =>
        if expired now e then rateLimitStore s
        else <[key := {| count := count e + 1; resetTime := resetTime e |}]>
               (rateLimitStore s)
    | None => rateLimitStore s
    end.
Proof.
  intros Hu key. subst key. split.
  - unfold_ops. rewrite Hu. simpl.
    destruct (rateLimitStore s !! composite_key category identifier) as [e|];
      simpl; [destruct (expired now e)|]; done.
  - unfold rateLimitCheck.
    destruct (rateLimitStore s !! composite_key category identifier)
      as [e|] eqn:E; [destruct (expired now e) eqn:X|].
    + apply check_undefined_reset; [done|]. intros e' ?. congruence.
    + by apply check_undefined_increment.
    + apply check_undefined_reset; [done|]. intros e' ?. congruence.
Qed.

Lemma unresolved_category_behaviour_witness :
  let s := (rateLimitCheck 1000 "a:b" "default" initial).2 in
  getRateLimitRemaining 2000 "b" "default:a" s = (Throw TypeError, s) ∧
  (rateLimitCheck 2000 "b" "default:a" s).1 = Throw TypeError ∧
  rateLimitStore (rateLimitCheck 2000 "b" "default:a" s).2 =
    <["default:a:b" := {| count := 2; resetTime := VNum 901000 |}]>
      (rateLimitStore s).
Proof.
  intros s.
  exact (unresolved_category_behaviour 2000 "b" "default:a" s eq_refl).
Defined.

Lemma inherited_property category :
  category ∈ Object_prototype →
  get_property RATE_LIMIT_CONFIG category = Inherited.
Proof.
  unfold Object_prototype. intros H.
  repeat (apply elem_of_cons in H as [-> | H]; [by vm_compute|]).
  by apply elem_of_nil in H.
Qed.

(** X9. A category named like a member of [Object.prototype] is never
    limited: in every state the check returns [true], and the quota query
    returns [undefined] or [NaN], not a number. *)
Theorem inherited_category_unlimited now identifier category s :
  category ∈ Object_prototype →
  (rateLimitCheck now identifier category s).1 = Return true ∧
  ((getRateLimitRemaining now identifier category s).1 = Return VUndefined ∨
   (getRateLimitRemaining now identifier category s).1 = Return VNaN).
Proof.
  intros Hin. pose proof (inherited_property _ Hin) as Hi.
  unfold_ops. rewrite Hi. simpl. split.
  - destruct (cleanupTimer s); simpl;
      (destruct (rateLimitStore s !! composite_key category identifier)
         as [e|]; simpl; [destruct (expired now e); simpl|]; done).
  - destruct (rateLimitStore s !! composite_key category identifier) as [e|];
      simpl; [destruct (expired now e); simpl|]; auto.
Qed.

Lemma inherited_category_unlimited_witness :
  let s := (run_checks "x" "constructor" (replicate 200 1000) initial).2 in
  (rateLimitCheck 1000 "x" "constructor" s).1 = Return true ∧
  ((getRateLimitRemaining 1000 "x" "constructor" s).1 = Return VUndefined ∨
   (getRateLimitRemaining 1000 "x" "constructor" s).1 = Return VNaN).
Proof.
  intros s.
  apply (inherited_category_unlimited 1000 "x" "constructor" s).
  unfold Object_prototype. apply elem_of_cons. by left.
Defined.

(** ** Growth of the store *)

(** X10. Whatever its arguments, a check removes no key from the store and
    adds at most its own composite key; the quota query changes nothing and
    a run of the cleanup callback adds no key.  Keys leave the store only
    through the cleanup callback. *)
Theorem store_growth now identifier category s :
  dom (rateLimitStore s) ⊆
    dom (rateLimitStore (rateLimitCheck now identifier category s).2) ∧
  dom (rateLimitStore (rateLimitCheck now identifier category s).2) ⊆
    dom (rateLimitStore s) ∪ {[composite_key category identifier]} ∧
  (getRateLimitRemaining now identifier category s).2 = s ∧
  dom (rateLimitStore (cleanup_callback now s)) ⊆ dom (rateLimitStore s).
Proof.
  unfold rateLimitCheck, getRateLimitRemaining.
  split; [|split; [|split]].
  - intros k Hk. apply elem_of_dom. apply elem_of_dom in Hk.
    destruct (check_store_cases RATE_LIMIT_CONFIG now identifier category s)
      as [-> | [[r ->] | (e & _ & ->)]];
      [done | apply lookup_insert_is_Some'; by right..].
  - intros k Hk. apply elem_of_union. rewrite elem_of_singleton, elem_of_dom.
    apply elem_of_dom in Hk.
    destruct (check_store_cases RATE_LIMIT_CONFIG now identifier category s)
      as [Heq | [[r Heq] | (e & _ & Heq)]]; rewrite Heq in Hk; [by left|..];
      apply lookup_insert_is_Some' in Hk as [<- | Hk]; auto.
  - apply remaining_state.
  - intros k. rewrite !elem_of_dom, cleanup_callback_lookup.
    destruct (rateLimitStore s !! k) as [e|]; simpl; [eauto|].
    by intros [? ?].
Qed.

(** * Properties of the sanitiser *)

(** ** The chain of replacements *)

Lemma replace_all_app c r s1 s2 :
  replace_all c r (s1 ++ s2) = replace_all c r s1 ++ replace_all c r s2.
Proof. unfold replace_all. apply flat_map_app. Qed.

Lemma escape_chain_unit c :
  replace_all 96 (lit "&#96;")
    (replace_all 47 (lit "&#x2F;")
    (replace_all 39 (lit "&#x27;")
    (replace_all 34 (lit "&quot;")
    (replace_all 62 (lit "&gt;")
    (replace_all 60 (lit "&lt;")
    (replace_all 38 (lit "&amp;") [c])))))) = html_entity c.
Proof.
  unfold html_entity.
  destruct (decide (c = 38)) as [->|H38]; [by vm_compute|].
  destruct (decide (c = 60)) as [->|H60]; [by vm_compute|].
  destruct (decide (c = 62)) as [->|H62]; [by vm_compute|].
  destruct (decide (c = 34)) as [->|H34]; [by vm_compute|].
  destruct (decide (c = 39)) as [->|H39]; [by vm_compute|].
  destruct (decide (c = 47)) as [->|H47]; [by vm_compute|].
  destruct (decide (c = 96)) as [->|H96]; [by vm_compute|].
  unfold replace_all. simpl.
  repeat (rewrite decide_False by done; simpl). done.
Qed.

Lemma escape_chain_flat_map s :
  replace_all 96 (lit "&#96;")
    (replace_all 47 (lit "&#x2F;")
    (replace_all 39 (lit "&#x27;")
    (replace_all 34 (lit "&quot;")
    (replace_all 62 (lit "&gt;")
    (replace_all 60 (lit "&lt;")
    (replace_all 38 (lit "&amp;") s)))))) = flat_map html_entity s.
Proof.
  induction s as [|c s IH]; [done|].
  change (c :: s) with ([c] ++ s).
  rewrite !replace_all_app, IH, escape_chain_unit. done.
Qed.

(** ** Entities *)

(** The eight shapes of [html_entity c]. *)
Lemma html_entity_cases c :
  (c = 38 ∧ html_entity c = [38; 97; 109; 112; 59]) ∨
  (c = 60 ∧ html_entity c = [38; 108; 116; 59]) ∨
  (c = 62 ∧ html_entity c = [38; 103; 116; 59]) ∨
  (c = 34 ∧ html_entity c = [38; 113; 117; 111; 116; 59]) ∨
  (c = 39 ∧ html_entity c = [38; 35; 120; 50; 55; 59]) ∨
  (c = 47 ∧ html_entity c = [38; 35; 120; 50; 70; 59]) ∨
  (c = 96 ∧ html_entity c = [38; 35; 57; 54; 59]) ∨
  ((c ∉ escaped_characters) ∧ html_entity c = [c]).
Proof.
  unfold html_entity.
  destruct (decide (c = 38)) as [->|H38]; [by left|right].
  destruct (decide (c = 60)) as [->|H60]; [by left|right].
  destruct (decide (c = 62)) as [->|H62]; [by left|right].
  destruct (decide (c = 34)) as [->|H34]; [by left|right].
  destruct (decide (c = 39)) as [->|H39]; [by left|right].
  destruct (decide (c = 47)) as [->|H47]; [by left|right].
  destruct (decide (c = 96)) as [->|H96]; [by left|right].
  split; [|done]. unfold escaped_characters.
  rewrite !elem_of_cons, elem_of_nil. tauto.
Qed.

Lemma html_entity_plain c :
  c ∉ escaped_characters → html_entity c = [c].
Proof.
  intros Hc.
  destruct (html_entity_cases c)
    as [[-> _]|[[-> _]|[[-> _]|[[-> _]|[[-> _]|[[-> _]|[[-> _]|[_ H]]]]]]]];
    try done; exfalso; apply Hc; unfold escaped_characters;
    rewrite !elem_of_cons; tauto.
Qed.

Lemma whitespace_not_escaped c :
  is_whitespace c = true → c ∉ escaped_characters.
Proof.
  unfold is_whitespace, escaped_characters. intros Hw Hc.
  apply bool_decide_eq_true in Hw.
  rewrite !elem_of_cons in Hw. rewrite !elem_of_cons in Hc.
  rewrite elem_of_nil in Hw. rewrite elem_of_nil in Hc. lia.
Qed.

Lemma html_entity_whitespace c :
  is_whitespace c = true → html_entity c = [c].
Proof. intros Hw. by apply html_entity_plain, whitespace_not_escaped. Qed.

Lemma html_entity_first c :
  is_whitespace c = false →
  ∃ x t, html_entity c = x :: t ∧ is_whitespace x = false.
Proof.
  intros Hw.
  destruct (html_entity_cases c)
    as [[_ ->]|[[_ ->]|[[_ ->]|[[_ ->]|[[_ ->]|[[_ ->]|[[_ ->]|[_ ->]]]]]]]];
    eauto.
Qed.

Lemma html_entity_last c :
  is_whitespace c = false →
  ∃ x t, reverse (html_entity c) = x :: t ∧ is_whitespace x = false.
Proof.
  intros Hw.
  destruct (html_entity_cases c)
    as [[_ ->]|[[_ ->]|[[_ ->]|[[_ ->]|[[_ ->]|[[_ ->]|[[_ ->]|[_ ->]]]]]]]];
    eauto.
Qed.

(** ** Trimming *)

Section TrimFlatMap.

Variable f : Z → jsstring.
Hypothesis f_whitespace : ∀ c, is_whitespace c = true → f c = [c].
Hypothesis f_first : ∀ c, is_whitespace c = false →
  ∃ x t, f c = x :: t ∧ is_whitespace x = false.

Lemma trimStart_flat_map s :
  trimStart (flat_map f s) = flat_map f (trimStart s).
Proof.
  induction s as [|c s IH]; [done|]. simpl.
  destruct (is_whitespace c) eqn:Hw.
  - rewrite (f_whitespace c Hw). simpl. by rewrite Hw.
  - destruct (f_first c Hw) as (x & t & Hf & Hx).
    simpl. rewrite Hf. simpl. by rewrite Hx.
Qed.

End TrimFlatMap.

Lemma reverse_flat_map (f : Z → jsstring) s :
  reverse (flat_map f s) = flat_map (λ c, reverse (f c)) (reverse s).
Proof.
  induction s as [|c s IH]; [done|]. simpl.
  rewrite reverse_app, reverse_cons, flat_map_app, IH. simpl.
  by rewrite app_nil_r.
Qed.

Lemma trimStart_length s : (length (trimStart s) ≤ length s)%nat.
Proof.
  induction s as [|c s IH]; simpl; [done|].
  destruct (is_whitespace c); simpl; lia.
Qed.

Lemma trim_length s : (length (trim s) ≤ length s)%nat.
Proof.
  unfold trim, trimEnd. rewrite length_reverse.
  etrans; [apply trimStart_length|]. rewrite length_reverse.
  apply trimStart_length.
Qed.

(** Escaping and trimming commute. *)
Lemma trim_flat_map_entity s :
  trim (flat_map html_entity s) = flat_map html_entity (trim s).
Proof.
  unfold trim, trimEnd.
  rewrite (trimStart_flat_map html_entity
             html_entity_whitespace html_entity_first).
  rewrite reverse_flat_map.
  rewrite (trimStart_flat_map (λ c, reverse (html_entity c))).
  - rewrite reverse_flat_map. apply flat_map_ext.
    intros c. apply reverse_involutive.
  - intros c Hw. by rewrite (html_entity_whitespace c Hw).
  - apply html_entity_last.
Qed.

Lemma trimStart_idemp s : trimStart (trimStart s) = trimStart s.
Proof.
  induction s as [|c s IH]; [done|]. simpl.
  destruct (is_whitespace c) eqn:Hw; [done|]. simpl. by rewrite Hw.
Qed.

Lemma trimStart_snoc w h :
  is_whitespace h = false → trimStart (w ++ [h]) = trimStart w ++ [h].
Proof.
  intros Hh. induction w as [|c w IH]; simpl; [by rewrite Hh|].
  by destruct (is_whitespace c).
Qed.

Lemma trimStart_fixed s :
  trimStart s = s ↔ s = [] ∨ ∃ h t, s = h :: t ∧ is_whitespace h = false.
Proof.
  split.
  - destruct s as [|c s]; [by left|]. simpl. intros H. right.
    destruct (is_whitespace c) eqn:Hw; [|by eauto].
    pose proof (trimStart_length s) as Hlen. rewrite H in Hlen.
    simpl in Hlen. lia.
  - intros [-> | (h & t & -> & Hh)]; [done|]. simpl. by rewrite Hh.
Qed.

Lemma trimStart_trimEnd s :
  trimStart s = s → trimStart (trimEnd s) = trimEnd s.
Proof.
  intros [-> | (h & t & -> & Hh)]%trimStart_fixed; [done|].
  unfold trimEnd. rewrite reverse_cons, (trimStart_snoc _ _ Hh).
  rewrite reverse_app. simpl. by rewrite Hh.
Qed.

Lemma trim_idemp s : trim (trim s) = trim s.
Proof.
  unfold trim.
  rewrite (trimStart_trimEnd (trimStart s)) by apply trimStart_idemp.
  unfold trimEnd. by rewrite reverse_involutive, trimStart_idemp.
Qed.

(** ** sanitizeInput *)

Section Sanitize.

Context {P : Type}.
Implicit Types (s : jsstring) (input : data P).

(** X11. The seven chained replacements do not interfere: no replacement
    touches what an earlier one inserted.  On a string, [sanitizeInput]
    replaces each code unit of the input by its entity, once, and it makes
    no difference whether the whitespace is trimmed before or after. *)
Theorem sanitizeInput_single_pass s :
  sanitizeInput (P := P) (DString s) = trim (flat_map html_entity s) ∧
  sanitizeInput (P := P) (DString s) = flat_map html_entity (trim s).
Proof.
  unfold sanitizeInput. rewrite escape_chain_flat_map.
  split; [done | apply trim_flat_map_entity].
Qed.

Lemma sanitizeInput_string s :
  sanitizeInput (P := P) (DString s) = flat_map html_entity (trim s).
Proof.
  unfold sanitizeInput. rewrite escape_chain_flat_map.
  apply trim_flat_map_entity.
Qed.

Lemma html_entity_safe x c :
  c ∈ html_entity x → c ∉ dangerous_characters.
Proof.
  unfold dangerous_characters. intros Hc Hd.
  rewrite !elem_of_cons in Hd. rewrite elem_of_nil in Hd.
  destruct (html_entity_cases x)
    as [[_ H]|[[_ H]|[[_ H]|[[_ H]|[[_ H]|[[_ H]|[[_ H]|[Hx H]]]]]]]];
    rewrite H in Hc; rewrite !elem_of_cons in Hc; rewrite elem_of_nil in Hc;
    try lia.
  apply Hx. unfold escaped_characters.
  rewrite !elem_of_cons. rewrite elem_of_nil.
  destruct Hc as [-> | []]. tauto.
Qed.

Lemma sanitizeInput_output input :
  Forall (λ c, c ∉ dangerous_characters) (sanitizeInput input) ∧
  trim (sanitizeInput input) = sanitizeInput input.
Proof.
  destruct input as [s| | |]; try (split; [by apply Forall_nil | done]).
  rewrite sanitizeInput_string. split.
  - apply Forall_forall. intros c Hc.
    apply list_elem_of_In, in_flat_map in Hc as (x & _ & Hc).
    apply list_elem_of_In in Hc. by apply html_entity_safe with x.
  - by rewrite trim_flat_map_entity, trim_idemp.
Qed.

(** X12. Whatever the input, the output of [sanitizeInput] contains none of
    the characters [<], [>], double quote, single quote, [/] and backquote,
    and it has no whitespace at either end. *)
Theorem sanitizeInput_safe input :
  Forall (λ c, c ∉ dangerous_characters) (sanitizeInput input) ∧
  trim (sanitizeInput input) = sanitizeInput input.
Proof. apply sanitizeInput_output. Qed.

(** Escaping loses nothing: the entities form a prefix code. *)
Lemma html_entity_cancel c1 c2 r1 r2 :
  html_entity c1 ++ r1 = html_entity c2 ++ r2 → c1 = c2 ∧ r1 = r2.
Proof.
  intros H.
  destruct (html_entity_cases c1)
    as [[E1 H1]|[[E1 H1]|[[E1 H1]|[[E1 H1]|[[E1 H1]|[[E1 H1]|[[E1 H1]|[E1 H1]]]]]]]];
  destruct (html_entity_cases c2)
    as [[E2 H2]|[[E2 H2]|[[E2 H2]|[[E2 H2]|[[E2 H2]|[[E2 H2]|[[E2 H2]|[E2 H2]]]]]]]];
  rewrite H1, H2 in H; simpl in H; simplify_eq; try done;
  exfalso; (apply E1 || apply E2); unfold escaped_characters;
  rewrite !elem_of_cons; tauto.
Qed.

Lemma flat_map_entity_inj s1 s2 :
  flat_map html_entity s1 = flat_map html_entity s2 → s1 = s2.
Proof.
  revert s2. induction s1 as [|c1 s1 IH]; intros [|c2 s2] H; simpl in H.
  - done.
  - destruct (html_entity_cases c2)
      as [[_ E]|[[_ E]|[[_ E]|[[_ E]|[[_ E]|[[_ E]|[[_ E]|[_ E]]]]]]]];
      rewrite E in H; discriminate H.
  - destruct (html_entity_cases c1)
      as [[_ E]|[[_ E]|[[_ E]|[[_ E]|[[_ E]|[[_ E]|[[_ E]|[_ E]]]]]]]];
      rewrite E in H; discriminate H.
  - apply html_entity_cancel in H as [-> H]. f_equal. by apply IH.
Qed.

(** X13. Apart from the whitespace it trims, [sanitizeInput] loses nothing
    of a string: two strings with the same output are equal once trimmed. *)
Theorem sanitizeInput_injective s1 s2 :
  sanitizeInput (P := P) (DString s1) = sanitizeInput (P := P) (DString s2) →
  trim s1 = trim s2.
Proof. rewrite !sanitizeInput_string. apply flat_map_entity_inj. Qed.

Lemma html_entity_length c :
  (1 ≤ length (html_entity c) ≤ 6)%nat ∧
  (length (html_entity c) = 1%nat → c ∉ escaped_characters).
Proof.
  destruct (html_entity_cases c)
    as [[_ E]|[[_ E]|[[_ E]|[[_ E]|[[_ E]|[[_ E]|[[_ E]|[Hc E]]]]]]]];
    rewrite E; simpl; split; try lia; try (intros; lia). done.
Qed.

Lemma flat_map_entity_length s :
  (length s ≤ length (flat_map html_entity s) ≤ 6 * length s)%nat.
Proof.
  induction s as [|c s IH]; simpl; [lia|].
  rewrite length_app. pose proof (html_entity_length c) as [? _]. lia.
Qed.

Lemma flat_map_entity_fixed s :
  flat_map html_entity s = s ↔ Forall (λ c, c ∉ escaped_characters) s.
Proof.
  split.
  - intros H. apply (f_equal length) in H.
    induction s as [|c s IH]; [by apply Forall_nil|].
    simpl in H. rewrite length_app in H.
    pose proof (html_entity_length c) as [Hlen Hone].
    pose proof (flat_map_entity_length s) as Hs.
    apply Forall_cons. split; [apply Hone; lia | apply IH; lia].
  - induction 1 as [|c s Hc _ IH]; [done|]. simpl.
    by rewrite (html_entity_plain c Hc), IH.
Qed.

(** X14. Sanitising twice is not sanitising once: a second pass escapes the
    [&] of the entities of the first.  The two agree exactly when the
    trimmed input has no character to escape. *)
Theorem sanitizeInput_twice s :
  sanitizeInput (P := P) (DString (sanitizeInput (P := P) (DString s))) =
    sanitizeInput (P := P) (DString s)
  ↔ Forall (λ c, c ∉ escaped_characters) (trim s).
Proof.
  rewrite (sanitizeInput_string (sanitizeInput _)).
  rewrite (proj2 (sanitizeInput_output (DString s))).
  rewrite sanitizeInput_string.
  rewrite <- flat_map_entity_fixed. split.
  - apply flat_map_entity_inj.
  - intros H. by rewrite !H.
Qed.

(** X15. The output of [sanitizeInput] on a string is at least as long as
    the trimmed input and at most six times as long as the input. *)
Theorem sanitizeInput_length s :
  (length (trim s) ≤ length (sanitizeInput (P := P) (DString s))
   ≤ 6 * length s)%nat.
Proof.
  rewrite sanitizeInput_string.
  pose proof (flat_map_entity_length (trim s)).
  pose proof (trim_length s). lia.
Qed.

End Sanitize.

Lemma sanitizeInput_injective_witness :
  trim (lit "  <b>Tom & Jerry</b> ") = trim (lit "<b>Tom & Jerry</b>").
Proof.
  apply (sanitizeInput_injective (P := unit)). vm_compute. reflexivity.
Defined.

Example sanitizeInput_script :
  sanitizeInput (P := unit) (DString (lit " <script>alert('x')</script> ")) =
    lit "&lt;script&gt;alert(&#x27;x&#x27;)&lt;&#x2F;script&gt;".
Proof. vm_compute. reflexivity. Qed.

(** ** sanitizeObject *)

(** *** Assignments keep what holds of every entry *)

Lemma define_property_Forall {A} (R : jsstring * A → Prop)
  (target : list (jsstring * A)) (key : jsstring) (x : A) :
  Forall R target → R (key, x) → Forall R (define_property target key x).
Proof.
  intros Ht Hkv. induction target as [|[k v] target IH]; simpl.
  - by apply Forall_cons.
  - apply Forall_cons in Ht as [Hk Ht].
    destruct (decide (k = key)) as [->|]; apply Forall_cons; auto.
Qed.

Lemma assign_Forall {A} (R : jsstring * A → Prop)
  (target : list (jsstring * A)) (key : jsstring) (x : A) :
  Forall R target → R (key, x) → Forall R (assign target key x).
Proof.
  intros Ht Hkv. unfold assign.
  destruct (decide (key = lit "__proto__")); [done|].
  by apply define_property_Forall.
Qed.

Lemma assign_entries_Forall {A} (R : jsstring * A → Prop)
  (es : list (jsstring * A)) :
  Forall R es → Forall R (assign_entries es).
Proof.
  unfold assign_entries. generalize (@nil (jsstring * A)) (Forall_nil_2 R).
  induction es as [|[k v] es IH]; intros target Ht Hes; simpl; [done|].
  apply Forall_cons in Hes as [Hkv Hes].
  apply IH; [|done]. by apply assign_Forall.
Qed.

Lemma array_entries_Forall {A} (R : A → Prop) (l : list A) :
  Forall R l → Forall (λ e, R e.2) (array_entries l).
Proof.
  intros Hl. unfold array_entries. apply Forall_lookup. intros i [k v] Hi.
  rewrite list_lookup_imap in Hi.
  destruct (l !! i) as [x|] eqn:E; simplify_eq/=.
  by eapply Forall_lookup_1.
Qed.

Section SanitizeObjectFacts.

Context {P : Type}.
Implicit Types (d obj value item : data P).
Implicit Types (entries : list (jsstring * data P)) (items : list (data P)).

Lemma sanitizeObject_object entries :
  sanitizeObject (DObject entries) =
    DObject (assign_entries
               (map (λ '(key, value), (key, sanitize_value value)) entries)).
Proof. reflexivity. Qed.

Lemma sanitizeObject_array items :
  sanitizeObject (DArray items) =
    DObject (assign_entries (array_entries (map sanitize_value items))).
Proof. reflexivity. Qed.

Lemma sanitizeObject_string s :
  sanitizeObject (P := P) (DString s) =
    DObject (assign_entries (array_entries
               (map (λ c, DString (sanitizeInput (P := P) (DString [c]))) s))).
Proof. reflexivity. Qed.

(** *** Every string of the result is safe *)

Lemma safe_value_object entries :
  safe_value (DObject entries) ↔ Forall (λ e, safe_value e.2) entries.
Proof.
  unfold safe_value. simpl. rewrite Forall_flat_map.
  apply Forall_proper; [|done]. by intros [k v].
Qed.

Lemma safe_value_array items :
  safe_value (DArray items) ↔ Forall safe_value items.
Proof. unfold safe_value. simpl. by rewrite Forall_flat_map. Qed.

Lemma safe_value_sanitized (input : data P) :
  safe_value (P := P) (DString (sanitizeInput input)).
Proof.
  unfold safe_value. simpl. apply Forall_cons. split; [|by apply Forall_nil].
  apply sanitizeInput_output.
Qed.

Lemma sanitize_safe d :
  safe_value (sanitizeObject d) ∧ safe_value (sanitize_value d) ∧
  safe_value (sanitize_item d).
Proof.
  induction d as [s|items IH|entries IH|p] using data_induction.
  - split; [|split]; try apply safe_value_sanitized.
    rewrite sanitizeObject_string.
    apply safe_value_object, assign_entries_Forall.
    apply (array_entries_Forall safe_value), Forall_map, Forall_forall.
    intros c _. apply safe_value_sanitized.
  - assert (Hobj : safe_value (sanitizeObject (DArray items))).
    { rewrite sanitizeObject_array.
      apply safe_value_object, assign_entries_Forall.
      apply (array_entries_Forall safe_value), Forall_map.
      eapply Forall_impl; [exact IH|]. by intros d (_ & ? & _). }
    split; [done|split; [|done]].
    unfold sanitize_value. apply safe_value_array, Forall_map.
    eapply Forall_impl; [exact IH|]. by intros d (_ & _ & ?).
  - assert (Hobj : safe_value (sanitizeObject (DObject entries))).
    { rewrite sanitizeObject_object.
      apply safe_value_object, assign_entries_Forall, Forall_map.
      eapply Forall_impl; [exact IH|]. by intros [k v] (_ & ? & _). }
    by repeat split.
  - repeat split; by apply Forall_nil.
Qed.

(** X16. Every string that [sanitizeObject] returns as a value, at any
    depth of the result, is free of the six dangerous characters, whatever
    the shape of the input. *)
Theorem sanitizeObject_safe obj : safe_value (sanitizeObject obj).
Proof. apply sanitize_safe. Qed.

(** *** Keys *)

Lemma define_property_fresh {A} (target : list (jsstring * A)) key (x : A) :
  key ∉ target.*1 → define_property target key x = target ++ [(key, x)].
Proof.
  induction target as [|[k v] target IH]; simpl; [done|].
  intros Hk. apply not_elem_of_cons in Hk as [Hne Hk].
  rewrite decide_False by done. by rewrite IH.
Qed.

Lemma assign_entries_distinct {A} (es : list (jsstring * A)) :
  NoDup es.*1 →
  assign_entries es = filter (λ e, e.1 ≠ lit "__proto__") es.
Proof.
  unfold assign_entries.
  assert (H : ∀ target : list (jsstring * A),
    NoDup (target.*1 ++ es.*1) →
    foldl (λ target '(key, x), assign target key x) target es =
      target ++ filter (λ e, e.1 ≠ lit "__proto__") es).
  { induction es as [|[k v] es IH]; intros target Hnd; simpl.
    { by rewrite app_nil_r. }
    simpl in Hnd. unfold assign.
    destruct (decide (k = lit "__proto__")) as [Hk|Hk].
    - rewrite filter_cons_False by (simpl; tauto).
      apply IH. apply NoDup_app in Hnd as (Ht & Hdisj & Hes).
      apply NoDup_cons in Hes as [_ Hes].
      apply NoDup_app. split; [done|]. split; [|done].
      intros x Hx Hx'. apply (Hdisj x Hx). by right.
    - rewrite filter_cons_True by done.
      rewrite define_property_fresh.
      + rewrite IH; [by rewrite <- app_assoc|].
        by rewrite fmap_app, <- app_assoc.
      + apply NoDup_app in Hnd as (_ & Hdisj & _).
        intros Hin. apply (Hdisj k Hin). by left. }
  intros Hnd. by rewrite (H []).
Qed.

(** X17. For an object with distinct keys, [sanitizeObject] returns the
    entries in their order, each key as it was (keys are not sanitised) and
    each value sanitised, except that an entry with the key ["__proto__"]
    is dropped. *)
Theorem sanitizeObject_entries entries :
  NoDup entries.*1 →
  sanitizeObject (DObject entries) =
    DObject (map (λ e, (e.1, sanitize_value e.2))
               (filter (λ e, e.1 ≠ lit "__proto__") entries)).
Proof.
  intros Hnd. rewrite sanitizeObject_object. f_equal.
  rewrite assign_entries_distinct.
  - induction entries as [|[k v] entries IH]; [done|]. simpl.
    apply NoDup_cons in Hnd as [_ Hnd].
    rewrite !filter_cons. simpl.
    destruct (decide (k ≠ lit "__proto__")); simpl; by rewrite IH.
  - rewrite <- list_fmap_compose.
    erewrite list_fmap_ext; [exact Hnd|]. by intros i [k v] _.
Qed.

End SanitizeObjectFacts.

Lemma sanitizeObject_entries_witness :
  sanitizeObject (P := bool)
    (DObject [(lit "<name>", DString (lit " a<b "));
              (lit "__proto__", DObject [(lit "admin", DOther true)]);
              (lit "tags", DArray [DString (lit "x/y"); DOther false])]) =
    DObject [(lit "<name>", DString (lit "a&lt;b"));
             (lit "tags", DArray [DString (lit "x&#x2F;y"); DOther false])].
Proof.
  rewrite sanitizeObject_entries.
  - vm_compute. reflexivity.
  - refine (bool_decide_unpack _ _). vm_compute. exact I.
Defined.

(** *** Arrays inside arrays *)










(** * Properties of the proxy *)

Lemma append_cons a (s t : string) : String a s +:+ t = String a (s +:+ t).
Proof. reflexivity. Qed.

Lemma append_assoc (s t u : string) : s +:+ t +:+ u = (s +:+ t) +:+ u.
Proof.
  induction s as [|a s IH]; [done|]. by rewrite !append_cons, IH.
Qed.

Lemma prefix_refl_append (s t : string) : String.prefix s (s +:+ t) = true.
Proof.
  induction s as [|a s IH]; [by destruct t|].
  rewrite append_cons. simpl. by destruct (Ascii.ascii_dec a a).
Qed.

Lemma includes_prefix (needle s : string) :
  String.prefix needle s = true → includes needle s = true.
Proof. destruct s; simpl; by intros ->. Qed.

Lemma includes_append (needle a b : string) :
  includes needle (a +:+ needle +:+ b) = true.
Proof.
  induction a as [|c a IH].
  - change (includes needle (needle +:+ b) = true).
    apply includes_prefix, prefix_refl_append.
  - rewrite append_cons. simpl. rewrite IH. apply orb_true_r.
Qed.

Lemma isPublicRoute_spec (route rest p : string) :
  route ∈ PUBLIC_ROUTES →
  p = route ∨ p = route +:+ "/" +:+ rest →
  isPublicRoute p = true.
Proof.
  intros Hroute Hp. unfold isPublicRoute.
  apply existsb_exists. exists route. split; [by apply list_elem_of_In|].
  destruct Hp as [-> | ->].
  - by rewrite bool_decide_eq_true_2.
  - apply orb_true_iff. right.
    rewrite append_assoc. apply prefix_refl_append.
Qed.

(** X19. A request with a non-empty value in the cookie ["session-token"]
    or ["next-auth.session-token"] is let through on every path, the paths
    under [/admin] included: the value is not examined and no path asks for
    more than its presence. *)
Theorem proxy_token_passes request v :
  cookies request !! "session-token" = Some v ∨
  cookies request !! "next-auth.session-token" = Some v →
  v ≠ EmptyString →
  proxy request = apply_security_headers NextResponse_next.
Proof.
  intros Hcookie Hv. unfold proxy.
  destruct (isPublicRoute (pathname request) || isStaticOrApi (pathname request));
    [done|].
  destruct Hcookie as [H | H].
  - rewrite H. simpl. rewrite decide_False by done. simpl.
    by rewrite bool_decide_eq_false_2.
  - rewrite H.
    destruct (cookies request !! "session-token") as [w|]; simpl.
    + destruct (decide (w = EmptyString)); simpl;
        by rewrite bool_decide_eq_false_2.
    + by rewrite bool_decide_eq_false_2.
Qed.

Lemma proxy_token_passes_witness :
  proxy {| pathname := "/admin/users"; url := "https://example.com/admin/users";
           cookies := {[ "session-token" := "x" ]} |} =
    apply_security_headers NextResponse_next.
Proof.
  apply (proxy_token_passes _ "x").
  - left. reflexivity.
  - discriminate.
Defined.

(** X20. Without any condition on the cookies, the proxy lets through every
    path that contains a dot, wherever it lies, and every path that is a
    public route or continues one after a slash.  As ["/"] is a public
    route, the latter includes every path that starts with two slashes. *)
Theorem proxy_open_paths request (a b route rest : string) :
  pathname request = a +:+ "." +:+ b ∨
  (route ∈ PUBLIC_ROUTES ∧
   (pathname request = route ∨ pathname request = route +:+ "/" +:+ rest)) →
  proxy request = apply_security_headers NextResponse_next.
Proof.
  intros H. unfold proxy.
  assert (Hopen : isPublicRoute (pathname request)
                  || isStaticOrApi (pathname request) = true);
    [|by rewrite Hopen].
  apply orb_true_iff. destruct H as [-> | [Hroute Hp]].
  - right. unfold isStaticOrApi. rewrite includes_append.
    apply orb_true_r.
  - left. by apply (isPublicRoute_spec route rest).
Qed.

Lemma proxy_open_paths_witness :
  proxy {| pathname := "/admin/export.csv";
           url := "https://example.com/admin/export.csv"; cookies := ∅ |} =
    apply_security_headers NextResponse_next ∧
  proxy {| pathname := "//admin"; url := "https://example.com//admin";
           cookies := ∅ |} =
    apply_security_headers NextResponse_next.
Proof.
  split.
  - apply (proxy_open_paths _ "/admin/export" "csv" "" "").
    left. reflexivity.
  - apply (proxy_open_paths _ "" "" "/" "admin").
    right. split; [|right; reflexivity].
    unfold PUBLIC_ROUTES. apply elem_of_cons. by left.
Defined.

(** X21. The proxy answers in one of two ways.  It lets the request
    through, with each of the seven security headers readable under any
    capitalisation of its name, when the path is public or static or a
    session cookie has a non-empty value.  Otherwise it redirects to
    [/login], resolved against the URL of the request, with the requested
    path as [callbackUrl]; the redirect carries none of the security
    headers. *)
Theorem proxy_response request :
  let p := pathname request in
  let token := js_or (cookies request !! "session-token")
                     (cookies request !! "next-auth.session-token") in
  if isPublicRoute p || isStaticOrApi p || negb (js_not token) then
    kind (proxy request) = Next ∧
    ∀ name value name',
      (name, value) ∈ SECURITY_HEADERS →
      lowercase name' = lowercase name →
      headers_get (proxy request) name' = Some value
  else
    kind (proxy request) =
      Redirect {| url_path := "/login"; url_base := url request;
                  searchParams := [("callbackUrl", p)]%string |} ∧
    ∀ name value,
      (name, value) ∈ SECURITY_HEADERS →
      headers_get (proxy request) name = None.
Proof.
  intros p token.
  assert (Hheaders : ∀ name value name',
    (name, value) ∈ SECURITY_HEADERS →
    lowercase name' = lowercase name →
    headers_get (apply_security_headers NextResponse_next) name' = Some value).
  { intros name value name' Hin Hname. unfold headers_get. rewrite Hname.
    unfold SECURITY_HEADERS in Hin.
    repeat (apply elem_of_cons in Hin as [[= -> ->] | Hin];
            [vm_compute; reflexivity|]).
    by apply elem_of_nil in Hin. }
  unfold proxy. fold p. fold token.
  destruct (isPublicRoute p || isStaticOrApi p); simpl.
  - split; [done | exact Hheaders].
  - destruct (js_not token); simpl.
    + split; [done|]. intros name value _. unfold headers_get. simpl.
      apply lookup_empty.
    + split; [done | exact Hheaders].
Qed.

(** * Properties of the redaction *)

Example isSensitive_examples :
  isSensitive (lit "company") = true ∧
  isSensitive (lit "Authorization") = true ∧
  isSensitive (lit "credit_card") = true ∧
  isSensitive (lit "creditcard") = true ∧
  isSensitive (lit "credit__card") = false ∧
  isSensitive (lit "message") = false ∧
  isSensitive (lit "__proto__") = false.
Proof. vm_compute. repeat split. Qed.

Example mask_card_numbers_examples :
  mask_card_numbers (lit "paid with 4111 1111-11111111, ok") =
    lit "paid with ****-****-****-****, ok" ∧
  mask_card_numbers (lit "4111111111111111") = lit "****-****-****-****" ∧
  mask_card_numbers (lit "id_4111111111111111") = lit "id_4111111111111111" ∧
  mask_card_numbers (lit "41111111111111112") = lit "41111111111111112" ∧
  mask_card_numbers (lit "4111  1111 1111 1111") = lit "4111  1111 1111 1111" ∧
  mask_card_numbers (lit "1111-2222-3333-4444-5555-6666-7777-8888") =
    lit "****-****-****-****-****-****-****-****".
Proof. vm_compute. repeat split. Qed.

(** ** Sensitive keys *)

Lemma match_here_letters (l w : jsstring) (p : list atom) (rest : jsstring) :
  ascii_upper <$> w = ascii_upper <$> l →
  match_here ((Letter <$> l) ++ p) (w ++ rest) = match_here p rest.
Proof.
  revert w. induction l as [|a l IH]; intros [|c w] H; simplify_eq/=; [done|].
  rewrite IH by done. unfold same_letter.
  by rewrite bool_decide_eq_true_2.
Qed.

Lemma regex_test_here p s : match_here p s = true → regex_test p s = true.
Proof. destruct s; simpl; by intros ->. Qed.

Lemma regex_test_app p (a s : jsstring) :
  regex_test p s = true → regex_test p (a ++ s) = true.
Proof.
  intros H. induction a as [|c a IH]; [done|]. simpl.
  rewrite IH. apply orb_true_r.
Qed.

Lemma isSensitive_pattern p key :
  p ∈ SENSITIVE_PATTERNS → regex_test p key = true → isSensitive key = true.
Proof.
  intros Hp Ht. unfold isSensitive. apply existsb_exists.
  exists p. split; [by apply list_elem_of_In | done].
Qed.

(** X22. A key that contains one of the words password, token, secret,
    authorization, cookie, cvv, cvc, pan, ssn, in any mixture of capital and
    small letters and anywhere in the key, is sensitive: so are, for
    instance, the keys ["company"] and ["tokenizer"]. *)
Theorem isSensitive_contains (word : string) (a w b : jsstring) :
  word ∈ ["password"; "token"; "secret"; "authorization"; "cookie"; "cvv";
          "cvc"; "pan"; "ssn"]%string →
  ascii_upper <$> w = ascii_upper <$> lit word →
  isSensitive (a ++ w ++ b) = true.
Proof.
  intros Hword Hw.
  apply isSensitive_pattern with (letters word).
  - unfold SENSITIVE_PATTERNS.
    repeat (apply elem_of_cons in Hword as [-> | Hword];
            [rewrite !elem_of_cons; tauto|]).
    by apply elem_of_nil in Hword.
  - apply regex_test_app, regex_test_here.
    unfold letters. rewrite <- (app_nil_r (Letter <$> lit word)).
    by rewrite (match_here_letters _ _ [] b Hw).
Qed.

Lemma isSensitive_contains_witness :
  isSensitive (lit "billingComPANy") = true.
Proof.
  apply (isSensitive_contains "pan" (lit "billingCom") (lit "PAN") (lit "y")).
  - rewrite !elem_of_cons. tauto.
  - vm_compute. reflexivity.
Defined.

(** X23. A key is also sensitive when it contains credit and card, card and
    number, or social and security, in any mixture of capital and small
    letters, either joined or with one character between the two words that
    is not a line terminator. *)
Theorem isSensitive_compound (first second : string) (a w1 sep w2 b : jsstring) :
  (first, second) ∈ [("credit", "card"); ("card", "number");
                     ("social", "security")]%string →
  ascii_upper <$> w1 = ascii_upper <$> lit first →
  ascii_upper <$> w2 = ascii_upper <$> lit second →
  (length sep ≤ 1)%nat →
  Forall (λ c, is_line_terminator c = false) sep →
  isSensitive (a ++ w1 ++ sep ++ w2 ++ b) = true.
Proof.
  intros Hpair H1 H2 Hlen Hsep.
  apply isSensitive_pattern
    with (letters first ++ [OptionalAny] ++ letters second).
  - unfold SENSITIVE_PATTERNS.
    repeat (apply elem_of_cons in Hpair as [[= -> ->] | Hpair];
            [rewrite !elem_of_cons; tauto|]).
    by apply elem_of_nil in Hpair.
  - apply regex_test_app, regex_test_here.
    unfold letters. rewrite (match_here_letters _ _ _ _ H1).
    assert (Hsecond : match_here (Letter <$> lit second) (w2 ++ b) = true).
    { rewrite <- (app_nil_r (Letter <$> lit second)).
      by rewrite (match_here_letters _ _ [] b H2). }
    destruct sep as [|c [|? ?]]; [| |simpl in Hlen; lia].
    + simpl. destruct (w2 ++ b); simpl in *; [done|].
      rewrite Hsecond. apply orb_true_r.
    + apply Forall_cons in Hsep as [Hc _]. simpl.
      by rewrite Hc, Hsecond.
Qed.

Lemma isSensitive_compound_witness :
  isSensitive (lit "user.Credit-Card.last4") = true.
Proof.
  apply (isSensitive_compound "credit" "card"
           (lit "user.") (lit "Credit") (lit "-") (lit "Card") (lit ".last4")).
  - rewrite !elem_of_cons. tauto.
  - vm_compute. reflexivity.
  - vm_compute. reflexivity.
  - simpl. lia.
  - apply Forall_cons_2; [vm_compute; reflexivity | apply Forall_nil_2].
Defined.

(** ** redactSensitiveData *)

Section RedactFacts.

Context {P : Type}.
Implicit Types (entries : list (jsstring * data P)) (items : list (data P)).

Lemma redactSensitiveData_object entries :
  redactSensitiveData (DObject entries) =
    DObject (assign_entries
               (map (λ '(key, value), (key, redact_value key value)) entries)).
Proof. reflexivity. Qed.

(** X24. For an object with distinct keys, [redactSensitiveData] returns
    the entries in their order under their keys, except that an entry with
    the key ["__proto__"] is dropped.  The value of a sensitive key is
    replaced by ["[REDACTED]"] whatever it is, a nested object or array
    included. *)
Theorem redactSensitiveData_entries entries :
  NoDup entries.*1 →
  ∃ out,
    redactSensitiveData (DObject entries) = DObject out ∧
    out = map (λ e, (e.1, redact_value e.1 e.2))
            (filter (λ e, e.1 ≠ lit "__proto__") entries) ∧
    ∀ key value,
      (key, value) ∈ entries → key ≠ lit "__proto__" →
      isSensitive key = true →
      (key, DString (lit "[REDACTED]")) ∈ out.
Proof.
  intros Hnd. eexists. split; [|split; [reflexivity|]].
  - rewrite redactSensitiveData_object. f_equal.
    rewrite assign_entries_distinct.
    + clear Hnd. induction entries as [|[k v] entries IH]; [done|]. simpl.
      rewrite !filter_cons. simpl.
      destruct (decide (k ≠ lit "__proto__")); simpl; by rewrite IH.
    + rewrite <- list_fmap_compose.
      erewrite list_fmap_ext; [exact Hnd|]. by intros i [k v] _.
  - intros key value Hin Hkey Hs.
    apply list_elem_of_fmap. exists (key, value). split.
    + simpl. unfold redact_value. by rewrite Hs.
    + by apply list_elem_of_filter.
Qed.

(** X25. The strings that are items of an array are returned as they are:
    under a key that is not sensitive, an array whose items are strings and
    values that are not objects comes back unchanged, so a card number in an
    array of strings is not masked. *)
Theorem redact_array_items_untouched key items :
  isSensitive key = false →
  key ≠ lit "__proto__" →
  Forall (λ item, match item with
                  | DString _ | DOther _ => True
                  | _ => False
                  end) items →
  redactSensitiveData (DObject [(key, DArray items)]) =
    DObject [(key, DArray items)].
Proof.
  intros Hs Hkey Hitems. rewrite redactSensitiveData_object.
  cbn [map]. unfold assign_entries. cbn [foldl]. unfold assign.
  rewrite decide_False by done. cbn [define_property].
  unfold redact_value. rewrite Hs. do 4 f_equal.
  induction Hitems as [|item items Hitem _ IH]; [done|].
  cbn [map]. rewrite IH. by destruct item.
Qed.

End RedactFacts.

Lemma redactSensitiveData_entries_witness :
  ∃ out,
    redactSensitiveData (P := Z)
      (DObject [(lit "user", DString (lit "ann"));
                (lit "Password", DObject [(lit "hash", DOther 7)]);
                (lit "note", DString (lit "card 4111-1111-1111-1111"))]) =
      DObject out ∧
    out = [(lit "user", DString (lit "ann"));
           (lit "Password", DString (lit "[REDACTED]"));
           (lit "note", DString (lit "card ****-****-****-****"))].
Proof.
  destruct (redactSensitiveData_entries (P := Z)
              [(lit "user", DString (lit "ann"));
               (lit "Password", DObject [(lit "hash", DOther 7)]);
               (lit "note", DString (lit "card 4111-1111-1111-1111"))])
    as (out & Heq & Hout & _).
  - refine (bool_decide_unpack _ _). vm_compute. exact I.
  - exists out. split; [exact Heq|]. rewrite Hout. vm_compute. reflexivity.
Defined.

Lemma redact_array_items_untouched_witness :
  redactSensitiveData (P := unit)
    (DObject [(lit "cards", DArray [DString (lit "4111 1111 1111 1111")])]) =
    DObject [(lit "cards", DArray [DString (lit "4111 1111 1111 1111")])].
Proof.
  apply (redact_array_items_untouched (P := unit)).
  - vm_compute. reflexivity.
  - vm_compute. discriminate.
  - apply Forall_cons_2; [exact I | apply Forall_nil_2].
Defined.

(** ** Masking card numbers *)

Lemma four_digits_not_digit k c s :
  is_digit c = false → four_digits k (c :: s) = None.
Proof.
  intros Hc. unfold four_digits.
  destruct s as [|b [|c' [|d rest]]]; try done. by rewrite Hc.
Qed.

Lemma match_card_none before c s :
  (is_digit c = true → from_option is_word false before = true) →
  match_card before (c :: s) = None.
Proof.
  intros H. unfold match_card. change (head (c :: s)) with (Some c).
  destruct (is_digit c) eqn:Hd.
  - unfold word_boundary. rewrite (H eq_refl). simpl.
    unfold is_word. by rewrite Hd.
  - rewrite four_digits_not_digit by done. by destruct (word_boundary _ _).
Qed.

(** X26. The mask leaves a string as it is when each of its digits directly
    follows a letter, a digit or an underscore: a string without digits, but
    also a card number glued to a word, as in ["id_4111111111111111"]. *)
Theorem mask_card_numbers_unchanged s :
  digits_follow_words None s → mask_card_numbers s = s.
Proof.
  unfold mask_card_numbers. generalize (@None Z).
  induction s as [|c s IH]; intros before H; [done|].
  destruct H as [Hc Hs].
  cbn [mask_from]. rewrite (match_card_none before c s Hc). by rewrite IH.
Qed.

Lemma mask_card_numbers_unchanged_witness :
  mask_card_numbers (lit "id_4111111111111111") = lit "id_4111111111111111".
Proof.
  apply mask_card_numbers_unchanged. vm_compute.
  repeat split; intros; try reflexivity; discriminate.
Defined.

Lemma digit_not_separator c : is_digit c = true → is_separator c = false.
Proof.
  unfold is_digit, is_separator, is_whitespace. intros Hd.
  apply bool_decide_eq_true in Hd.
  apply orb_false_iff. split; apply bool_decide_eq_false; [|lia].
  rewrite !elem_of_cons. rewrite elem_of_nil. lia.
Qed.

Lemma digit_is_word c : is_digit c = true → is_word c = true.
Proof. unfold is_word. by intros ->. Qed.

Lemma four_digits_group k g rest :
  digit_group g →
  ∃ d, last g = Some d ∧ is_digit d = true ∧
       four_digits k (g ++ rest) = k d rest.
Proof.
  intros [Hlen Hg].
  destruct g as [|a [|b [|c [|d [|? ?]]]]]; try discriminate Hlen.
  apply Forall_cons in Hg as [Ha Hg]. apply Forall_cons in Hg as [Hb Hg].
  apply Forall_cons in Hg as [Hc Hg]. apply Forall_cons in Hg as [Hd _].
  exists d. split; [done|]. split; [done|].
  simpl. by rewrite Ha, Hb, Hc, Hd.
Qed.

Lemma digit_group_head g rest :
  digit_group g → ∃ d tl, g ++ rest = d :: tl ∧ is_digit d = true.
Proof.
  intros [Hlen Hg]. destruct g as [|d g]; [discriminate Hlen|].
  apply Forall_cons in Hg as [Hd _]. by exists d, (g ++ rest).
Qed.

Lemma optional_separator_text_spec k s rest r :
  optional_separator_text s →
  (∃ d tl, rest = d :: tl ∧ is_digit d = true) →
  k rest = Some r →
  optional_separator k (s ++ rest) = Some r.
Proof.
  intros [-> | (c & -> & Hc)] (d & tl & -> & Hd) Hk; simpl.
  - by rewrite (digit_not_separator d Hd).
  - by rewrite Hc, Hk.
Qed.

(** The pattern matches a card number that is followed by no character of
    a word, and consumes exactly the card number. *)
Lemma match_card_card before g1 s1 g2 s2 g3 s3 g4 post :
  from_option is_word false before = false →
  digit_group g1 → digit_group g2 → digit_group g3 → digit_group g4 →
  optional_separator_text s1 → optional_separator_text s2 →
  optional_separator_text s3 →
  from_option is_word false (head post) = false →
  match_card before (g1 ++ s1 ++ g2 ++ s2 ++ g3 ++ s3 ++ g4 ++ post) =
    Some post.
Proof.
  intros Hbefore H1 H2 H3 H4 Hs1 Hs2 Hs3 Hpost. unfold match_card.
  destruct (digit_group_head g1 (s1 ++ g2 ++ s2 ++ g3 ++ s3 ++ g4 ++ post) H1)
    as (d1 & tl1 & Hhead & Hd1).
  rewrite Hhead at 1. cbn [head]. unfold word_boundary at 1.
  rewrite Hbefore. cbn [from_option]. rewrite (digit_is_word d1 Hd1).
  cbn [eqb negb].
  destruct (four_digits_group
              (λ _, optional_separator
              (four_digits (λ _, optional_separator
              (four_digits (λ _, optional_separator
              (four_digits (λ last rest,
                 if word_boundary (Some last) (head rest)
                 then Some rest else None)))))))
              g1 (s1 ++ g2 ++ s2 ++ g3 ++ s3 ++ g4 ++ post) H1)
    as (? & _ & _ & ->).
  apply optional_separator_text_spec;
    [done | by apply digit_group_head |].
  destruct (four_digits_group
              (λ _, optional_separator
              (four_digits (λ _, optional_separator
              (four_digits (λ last rest,
                 if word_boundary (Some last) (head rest)
                 then Some rest else None)))))
              g2 (s2 ++ g3 ++ s3 ++ g4 ++ post) H2)
    as (? & _ & _ & ->).
  apply optional_separator_text_spec;
    [done | by apply digit_group_head |].
  destruct (four_digits_group
              (λ _, optional_separator
              (four_digits (λ last rest,
                 if word_boundary (Some last) (head rest)
                 then Some rest else None)))
              g3 (s3 ++ g4 ++ post) H3)
    as (? & _ & _ & ->).
  apply optional_separator_text_spec;
    [done | by apply digit_group_head |].
  destruct (four_digits_group
              (λ last rest,
                 if word_boundary (Some last) (head rest)
                 then Some rest else None)
              g4 post H4)
    as (d4 & _ & Hd4 & ->).
  unfold word_boundary. cbn [from_option].
  by rewrite (digit_is_word d4 Hd4), Hpost.
Qed.

Lemma from_option_last_cons (before : option Z) c l :
  from_option Some before (last (c :: l)) = from_option Some (Some c) (last l).
Proof.
  destruct l as [|x l]; [done|].
  change (last (c :: x :: l)) with (last (x :: l)).
  destruct (last (x :: l)) eqn:E; [done|]. by apply last_None in E.
Qed.

Lemma mask_from_no_digits before pre rest :
  Forall (λ c, is_digit c = false) pre →
  mask_from before 0 (pre ++ rest) =
    pre ++ mask_from (from_option Some before (last pre)) 0 rest.
Proof.
  intros Hpre. revert before.
  induction Hpre as [|c pre Hc _ IH]; intros before; [done|].
  cbn [app mask_from]. rewrite match_card_none by (rewrite Hc; discriminate).
  by rewrite IH, from_option_last_cons.
Qed.

Lemma mask_from_skip before l rest :
  mask_from before (length l) (l ++ rest) =
    mask_from (from_option Some before (last l)) 0 rest.
Proof.
  revert before. induction l as [|c l IH]; intros before; [done|].
  cbn [app length mask_from]. by rewrite IH, from_option_last_cons.
Qed.

(** X27. A card number of four groups of four digits, the groups joined or
    separated by one whitespace character or hyphen, is replaced by the mask
    when the text before it has no digit and does not end in a letter or an
    underscore, and the text after it has no digit and does not begin with
    one.  The surrounding text is kept. *)
Theorem mask_card_numbers_card (pre g1 s1 g2 s2 g3 s3 g4 post : jsstring) :
  Forall (λ c, is_digit c = false) pre →
  from_option is_word false (last pre) = false →
  digit_group g1 → digit_group g2 → digit_group g3 → digit_group g4 →
  optional_separator_text s1 → optional_separator_text s2 →
  optional_separator_text s3 →
  Forall (λ c, is_digit c = false) post →
  from_option is_word false (head post) = false →
  mask_card_numbers
    (pre ++ g1 ++ s1 ++ g2 ++ s2 ++ g3 ++ s3 ++ g4 ++ post) =
    pre ++ lit "****-****-****-****" ++ post.
Proof.
  intros Hpre Hlast H1 H2 H3 H4 Hs1 Hs2 Hs3 Hpost Hhead.
  unfold mask_card_numbers. rewrite (mask_from_no_digits _ _ _ Hpre).
  f_equal.
  assert (Hbefore :
    from_option is_word false (from_option Some None (last pre)) = false).
  { by destruct (last pre). }
  pose proof (match_card_card _ g1 s1 g2 s2 g3 s3 g4 post
                Hbefore H1 H2 H3 H4 Hs1 Hs2 Hs3 Hhead) as Hmatch.
  destruct H1 as [Hlen1 _]. destruct g1 as [|d1 g1]; [discriminate Hlen1|].
  cbn [app] in *. cbn [mask_from]. rewrite Hmatch. f_equal.
  rewrite !app_assoc. rewrite length_app, Nat.add_sub.
  rewrite mask_from_skip.
  rewrite <- (app_nil_r post) at 1.
  rewrite (mask_from_no_digits _ post [] Hpost). by rewrite !app_nil_r.
Qed.

Lemma mask_card_numbers_card_witness :
  mask_card_numbers (lit "paid with 4111 1111-11111111, thanks") =
    lit "paid with ****-****-****-****, thanks".
Proof.
  apply (mask_card_numbers_card (lit "paid with ")
           (lit "4111") (lit " ") (lit "1111") (lit "-") (lit "1111") []
           (lit "1111") (lit ", thanks")).
  - refine (bool_decide_unpack _ _). vm_compute. exact I.
  - vm_compute. reflexivity.
  - split; [reflexivity|]. refine (bool_decide_unpack _ _). vm_compute. exact I.
  - split; [reflexivity|]. refine (bool_decide_unpack _ _). vm_compute. exact I.
  - split; [reflexivity|]. refine (bool_decide_unpack _ _). vm_compute. exact I.
  - split; [reflexivity|]. refine (bool_decide_unpack _ _). vm_compute. exact I.
  - right. exists 32. split; [reflexivity | vm_compute; reflexivity].
  - right. exists 45. split; [reflexivity | vm_compute; reflexivity].
  - by left.
  - refine (bool_decide_unpack _ _). vm_compute. exact I.
  - vm_compute. reflexivity.
Defined.
